(** * Catalyst: a tree-rewriting optimizer for addition expressions

    A shallow embedding of [ast.hpp], [ast.cpp], [eval.cpp] and
    [optimizer.cpp], followed by the properties established for them.

    Conventions of the embedding:
    - [std::size_t] is a 64-bit unsigned integer, modelled by [Z] with the
      wrap-around of [+] written out ([size_t_add]);
    - [std::variant<std::size_t, AnyNumber>] is the inductive [Numeric];
    - the class hierarchy rooted at [Expr] is the closed inductive [Expr];
    - a failed [assert], a thrown exception or a cast to the wrong dynamic
      type is the result [None];
    - [std::vector] is [list], [push_back] appends at the end, [at]
      is the checked lookup [!!];
    - [Module Heap] models the objects behind the [std::unique_ptr]s as
      cells of a store, for the statements that speak about copies and
      in-place mutation. *)

From Stdlib Require Import ZArith String List Lia Bool.
From stdpp Require Import base option list strings gmap.

Local Open Scope Z_scope.
#[local] Set Warnings "-clear-no-such-hyp".

(* ------------------------------------------------------------------------- *)
(** ** ast.hpp *)
(* ------------------------------------------------------------------------- *)

(** [using Identifier = std::string;] *)
Definition Identifier : Type := string.

(** [enum class ExprType] *)
Inductive ExprType : Type :=
| NUMERIC_CONSTANT
| BINARY_ADDITION.

Definition ExprType_eqb (a b : ExprType) : bool :=
  match a, b with
  | NUMERIC_CONSTANT, NUMERIC_CONSTANT => true
  | BINARY_ADDITION, BINARY_ADDITION => true
  | _, _ => false
  end.

(** Width of [std::size_t] and its arithmetic. *)
Definition size_t_bits : Z := 64.
Definition size_t_modulus : Z := 2 ^ size_t_bits.
Definition size_t_add (a b : Z) : Z := (a + b) mod size_t_modulus.
Definition in_size_t (v : Z) : Prop := 0 <= v < size_t_modulus.

(** [using Numeric = std::variant<std::size_t, AnyNumber>;] *)
Inductive Numeric : Type :=
| Value (v : Z)
| AnyNumber.

(** [std::holds_alternative<std::size_t>] and
    [std::holds_alternative<AnyNumber>]. *)
Definition holds_size_t (n : Numeric) : bool :=
  match n with Value _ => true | AnyNumber => false end.
Definition holds_AnyNumber (n : Numeric) : bool :=
  match n with Value _ => false | AnyNumber => true end.

(** The two concrete classes deriving from [Expr]; the fields are the
    private members of the classes, in declaration order. *)
Inductive Expr : Type :=
| ENumericConstant (value_ : Numeric) (id_ : Identifier)
| EBinaryAddition (left_ right_ : Expr) (id_ : Identifier).

(** [Expr::Type] *)
Definition Type_ (e : Expr) : ExprType :=
  match e with
  | ENumericConstant _ _ => NUMERIC_CONSTANT
  | EBinaryAddition _ _ _ => BINARY_ADDITION
  end.

(** [NumericConstantExpr::Id] and [BinaryAdditionExpr::Id] *)
Definition Id (e : Expr) : Identifier :=
  match e with
  | ENumericConstant _ id => id
  | EBinaryAddition _ _ id => id
  end.

Module NumericConstant.
(** [NumericConstantExpr::Make(Numeric value)] *)
Definition Make (value : Numeric) : Expr := ENumericConstant value "".
(** [NumericConstantExpr::Make(Numeric value, Identifier id)] *)
Definition MakeId (value : Numeric) (id : Identifier) : Expr :=
  ENumericConstant value id.
End NumericConstant.

Module BinaryAddition.
(** [BinaryAdditionExpr::Make(left, right)] *)
Definition Make (left right : Expr) : Expr := EBinaryAddition left right "".
(** [BinaryAdditionExpr::Make(left, right, id)] *)
Definition MakeId (left right : Expr) (id : Identifier) : Expr :=
  EBinaryAddition left right id.
(** [BinaryAdditionExpr::ReplaceLeft] and [ReplaceRight], on values; the
    cast of an [Expr] that is no addition has no result. *)
Definition ReplaceLeft (e left : Expr) : option Expr :=
  match e with
  | EBinaryAddition _ r id => Some (EBinaryAddition left r id)
  | ENumericConstant _ _ => None
  end.
Definition ReplaceRight (e right : Expr) : option Expr :=
  match e with
  | EBinaryAddition l _ id => Some (EBinaryAddition l right id)
  | ENumericConstant _ _ => None
  end.
End BinaryAddition.

(* ------------------------------------------------------------------------- *)
(** ** ast.cpp *)
(* ------------------------------------------------------------------------- *)

(** [NumericConstantExpr::Evaluate] asserts that the variant holds a
    [std::size_t] and returns it; [BinaryAdditionExpr::Evaluate] evaluates
    both children and adds the results in [std::size_t]. *)
Fixpoint Evaluate (e : Expr) : option Z :=
  match e with
  | ENumericConstant value_ _ =>
      match value_ with
      | Value v => Some v
      | AnyNumber => None
      end
  | EBinaryAddition left_ right_ _ =>
      a ← Evaluate left_;
      b ← Evaluate right_;
      Some (size_t_add a b)
  end.

(** [NumericConstantExpr::Clone] and [BinaryAdditionExpr::Clone]. *)
Fixpoint Clone (e : Expr) : Expr :=
  match e with
  | ENumericConstant value_ id_ => NumericConstant.MakeId value_ id_
  | EBinaryAddition left_ right_ id_ =>
      BinaryAddition.MakeId (Clone left_) (Clone right_) id_
  end.

(** [eval.cpp] *)
Definition eval (root : Expr) : option Z := Evaluate root.

(* ------------------------------------------------------------------------- *)
(** ** optimizer.hpp: [class Transform] *)
(* ------------------------------------------------------------------------- *)

Record Transform : Type := MakeTransform {
  Name : string;
  InputPattern : Expr;
  OutputPattern : Expr
}.

(* ------------------------------------------------------------------------- *)
(** ** optimizer.cpp *)
(* ------------------------------------------------------------------------- *)

(** [static const Identifier NULL_ID] *)
Definition NULL_ID : Identifier := "".

(** [FlattenExpressionsTo]: the vector is threaded through the calls. *)
Fixpoint FlattenExpressionsTo (root : Expr) (expressions : list Expr) : list Expr :=
  match root with
  | EBinaryAddition l r _ =>
      let expressions := FlattenExpressionsTo l expressions in
      let expressions := FlattenExpressionsTo r expressions in
      expressions ++ [root]
  | ENumericConstant _ _ => expressions ++ [root]
  end.

(** [FlattenIdentifiersTo] *)
Fixpoint FlattenIdentifiersTo (root : Expr) (identifiers : list Identifier)
  : list Identifier :=
  match root with
  | EBinaryAddition l r id =>
      let identifiers := FlattenIdentifiersTo l identifiers in
      let identifiers := FlattenIdentifiersTo r identifiers in
      identifiers ++ [id]
  | ENumericConstant _ id => identifiers ++ [id]
  end.

(** [std::distance(v.cbegin(), std::find(v.cbegin(), v.cend(), x))]: the index
    of the first element equal to [x], the length of [v] when there is none. *)
Fixpoint find_distance (v : list Identifier) (x : Identifier) : nat :=
  match v with
  | [] => 0%nat
  | y :: v' => if String.eqb y x then 0%nat else S (find_distance v' x)
  end.

Module Optimizer.

Definition TransformBinaryAdditionWithZeroOnLeft : Transform :=
  let input_pattern :=
    BinaryAddition.Make
      (NumericConstant.Make (Value 0))
      (NumericConstant.MakeId AnyNumber "right") in
  let output_pattern := NumericConstant.MakeId AnyNumber "right" in
  MakeTransform "Left-wise Binary Addition with Zero"
    input_pattern output_pattern.

Definition TransformBinaryAdditionWithZeroOnRight : Transform :=
  let input_pattern :=
    BinaryAddition.Make
      (NumericConstant.MakeId AnyNumber "left")
      (NumericConstant.Make (Value 0)) in
  let output_pattern := NumericConstant.MakeId AnyNumber "left" in
  MakeTransform "Right-wise Binary Addition with Zero"
    input_pattern output_pattern.

(** [Optimizer::Match] *)
Fixpoint Match (pattern query : Expr) : bool :=
  if negb (ExprType_eqb (Type_ pattern) (Type_ query)) then false else
  match pattern with
  | EBinaryAddition pattern_left pattern_right _ =>
      match query with
      | EBinaryAddition query_left query_right _ =>
          Match pattern_left query_left && Match pattern_right query_right
      | ENumericConstant _ _ => false
      end
  | ENumericConstant v0 _ =>
      match query with
      | ENumericConstant v1 _ =>
          match v0, v1 with
          | Value a, Value b => a =? b
          | _, _ => true
          end
      | EBinaryAddition _ _ _ => false
      end
  end.

(** [Optimizer::ApplyTransformAt(pattern, expressions, identifiers)].
    The failed [assert], the [std::out_of_range] of [at] and the cast of an
    addition node to [NumericConstantExpr] have no result. *)
Fixpoint ApplyTransformAtIn (pattern : Expr) (expressions : list Expr)
    (identifiers : list Identifier) : option Expr :=
  match pattern with
  | EBinaryAddition l r _ =>
      l' ← ApplyTransformAtIn l expressions identifiers;
      r' ← ApplyTransformAtIn r expressions identifiers;
      Some (BinaryAddition.Make l' r')
  | ENumericConstant value id =>
      if holds_AnyNumber value then
        let index := find_distance identifiers id in
        if bool_decide (index = length identifiers) then None else
        match expressions !! index with
        | Some (ENumericConstant v _) => Some (NumericConstant.Make v)
        | Some (EBinaryAddition _ _ _) => None
        | None => None
        end
      else Some (NumericConstant.Make value)
  end.

(** [Optimizer::ApplyTransformAt(transform, position)] *)
Definition ApplyTransformAt (transform : Transform) (position : Expr)
  : option Expr :=
  let expressions := FlattenExpressionsTo position [] in
  let identifiers := FlattenIdentifiersTo (InputPattern transform) [] in
  ApplyTransformAtIn (OutputPattern transform) expressions identifiers.

(** [Optimizer::ApplyTransform] *)
Fixpoint ApplyTransform (transform : Transform) (root : Expr) : option Expr :=
  match root with
  | EBinaryAddition l r _ =>
      if Match (InputPattern transform) root
      then ApplyTransformAt transform root
      else
        l' ← ApplyTransform transform l;
        r' ← ApplyTransform transform r;
        Some (BinaryAddition.Make l' r')
  | ENumericConstant _ _ => Some (Clone root)
  end.

(** [Optimizer::Optimize]: the loop over the vector of transforms. *)
Definition Optimize (root : Expr) : option Expr :=
  let transforms :=
    [TransformBinaryAdditionWithZeroOnLeft;
     TransformBinaryAdditionWithZeroOnRight] in
  foldl (fun current transform => current ≫= ApplyTransform transform)
    (Some root) transforms.

End Optimizer.

Import Optimizer.

(* ------------------------------------------------------------------------- *)
(** ** Vocabulary of the specification *)
(* ------------------------------------------------------------------------- *)

(** The tree contains a wildcard leaf somewhere. *)
Fixpoint has_wildcard (e : Expr) : bool :=
  match e with
  | ENumericConstant value_ _ => holds_AnyNumber value_
  | EBinaryAddition l r _ => has_wildcard l || has_wildcard r
  end.

(** Every concrete leaf holds a value of type [std::size_t]. *)
Fixpoint values_in_size_t (e : Expr) : Prop :=
  match e with
  | ENumericConstant (Value v) _ => in_size_t v
  | ENumericConstant AnyNumber _ => True
  | EBinaryAddition l r _ => values_in_size_t l /\ values_in_size_t r
  end.

(** The exact sum, in [Z], of the concrete leaves. *)
Fixpoint leaf_sum (e : Expr) : Z :=
  match e with
  | ENumericConstant (Value v) _ => v
  | ENumericConstant AnyNumber _ => 0
  | EBinaryAddition l r _ => leaf_sum l + leaf_sum r
  end.

Fixpoint height (e : Expr) : nat :=
  match e with
  | ENumericConstant _ _ => 0%nat
  | EBinaryAddition l r _ => S (Nat.max (height l) (height r))
  end.

(** The tree with every binding name erased. *)
Fixpoint strip_ids (e : Expr) : Expr :=
  match e with
  | ENumericConstant value_ _ => ENumericConstant value_ NULL_ID
  | EBinaryAddition l r _ => EBinaryAddition (strip_ids l) (strip_ids r) NULL_ID
  end.

(** Every addition node carries the empty binding name. *)
Fixpoint addition_ids_empty (e : Expr) : Prop :=
  match e with
  | ENumericConstant _ _ => True
  | EBinaryAddition l r id =>
      id = NULL_ID /\ addition_ids_empty l /\ addition_ids_empty r
  end.

(** The numeric leaves, left to right, each with its binding name. *)
Fixpoint leaves (e : Expr) : list (Numeric * Identifier) :=
  match e with
  | ENumericConstant value_ id_ => [(value_, id_)]
  | EBinaryAddition l r _ => leaves l ++ leaves r
  end.

(** The tree with the binding names of its addition nodes erased and its
    leaves untouched. *)
Fixpoint clear_addition_ids (e : Expr) : Expr :=
  match e with
  | ENumericConstant value_ id_ => ENumericConstant value_ id_
  | EBinaryAddition l r _ =>
      EBinaryAddition (clear_addition_ids l) (clear_addition_ids r) NULL_ID
  end.

(** A tree position: the path from the root to a node. *)
Inductive Dir : Type := GoLeft | GoRight.
Definition Position : Type := list Dir.

(** The node found at a position, when the position exists in the tree. *)
Fixpoint node_at (e : Expr) (pos : Position) : option Expr :=
  match pos with
  | [] => Some e
  | d :: pos' =>
      match e with
      | EBinaryAddition l r _ =>
          match d with
          | GoLeft => node_at l pos'
          | GoRight => node_at r pos'
          end
      | ENumericConstant _ _ => None
      end
  end.

(** The positions of a tree in post-order: left subtree, right subtree, root. *)
Fixpoint post_order (e : Expr) : list Position :=
  match e with
  | ENumericConstant _ _ => [[]]
  | EBinaryAddition l r _ =>
      map (cons GoLeft) (post_order l) ++ map (cons GoRight) (post_order r) ++ [[]]
  end.

(** No node of the tree is matched by the input pattern of the transform. *)
Fixpoint no_match_in (transform : Transform) (e : Expr) : Prop :=
  match e with
  | ENumericConstant _ _ => True
  | EBinaryAddition l r _ =>
      Match (InputPattern transform) e = false
      /\ no_match_in transform l /\ no_match_in transform r
  end.

(* ------------------------------------------------------------------------- *)
(** ** The objects behind the pointers

    Every [Expr] object lives in a cell of the store; a
    [std::unique_ptr<Expr>] and an [Expr const*] are both the address of a
    cell.  [new] takes an address that is not in use.  The member functions
    follow pointers, so the recursive ones carry a bound on the depth they
    may descend ([fuel]); running out of it has no result. *)
(* ------------------------------------------------------------------------- *)

Module Heap.

Abbreviation loc := positive.

Inductive cell : Type :=
| CNumericConstant (value_ : Numeric) (id_ : Identifier)
| CBinaryAddition (left_ right_ : loc) (id_ : Identifier).

Abbreviation store := (gmap positive cell).

(** [new T{...}] *)
Definition new (h : store) (c : cell) : store * loc :=
  let p := fresh (dom h) in (<[p := c]> h, p).

(** [Expr::Evaluate], dispatched on the dynamic type of [*this]. *)
Fixpoint Evaluate (fuel : nat) (h : store) (this : loc) : option Z :=
  match fuel with
  | O => None
  | S fuel =>
      match h !! this with
      | Some (CNumericConstant (Value v) _) => Some v
      | Some (CNumericConstant AnyNumber _) => None
      | Some (CBinaryAddition l r _) =>
          a ← Evaluate fuel h l;
          b ← Evaluate fuel h r;
          Some (size_t_add a b)
      | None => None
      end
  end.

(** [Expr::Clone]: the copies of the children are made first, then the copy
    of the node is allocated.  C++ leaves the order of the two recursive
    calls open; the model takes left before right. *)
Fixpoint Clone (fuel : nat) (h : store) (this : loc) : option (store * loc) :=
  match fuel with
  | O => None
  | S fuel =>
      match h !! this with
      | Some (CNumericConstant value_ id_) =>
          Some (new h (CNumericConstant value_ id_))
      | Some (CBinaryAddition l r id_) =>
          '(h1, l') ← Clone fuel h l;
          '(h2, r') ← Clone fuel h1 r;
          Some (new h2 (CBinaryAddition l' r' id_))
      | None => None
      end
  end.

(** [delete p]: the destructor of an addition node releases [right_], then
    [left_] (members in reverse order of declaration), then the cell. *)
Fixpoint destroy (fuel : nat) (h : store) (p : loc) : option store :=
  match fuel with
  | O => None
  | S fuel =>
      match h !! p with
      | Some (CNumericConstant _ _) => Some (delete p h)
      | Some (CBinaryAddition l r _) =>
          h1 ← destroy fuel h r;
          h2 ← destroy fuel h1 l;
          Some (delete p h2)
      | None => None
      end
  end.

(** [BinaryAdditionExpr::ReplaceLeft]: the move assignment of a
    [unique_ptr] stores the new pointer and then deletes the old pointee. *)
Definition ReplaceLeft (fuel : nat) (h : store) (this left : loc)
  : option store :=
  match h !! this with
  | Some (CBinaryAddition old r id_) =>
      destroy fuel (<[this := CBinaryAddition left r id_]> h) old
  | _ => None
  end.

(** [BinaryAdditionExpr::ReplaceRight] *)
Definition ReplaceRight (fuel : nat) (h : store) (this right : loc)
  : option store :=
  match h !! this with
  | Some (CBinaryAddition l old id_) =>
      destroy fuel (<[this := CBinaryAddition l right id_]> h) old
  | _ => None
  end.

(** [repr h p t F]: the cells of [F] form, from address [p], the tree [t];
    every cell is owned by exactly one parent. *)
Fixpoint repr (h : store) (p : loc) (t : Expr) (F : gset positive) : Prop :=
  match t with
  | ENumericConstant value_ id_ =>
      h !! p = Some (CNumericConstant value_ id_) /\ F = {[p]}
  | EBinaryAddition a b id_ =>
      exists pa pb Fa Fb,
        h !! p = Some (CBinaryAddition pa pb id_)
        /\ repr h pa a Fa /\ repr h pb b Fb
        /\ (Fa ## Fb) /\ (p ∉ Fa ∪ Fb) /\ F = {[p]} ∪ Fa ∪ Fb
  end.

End Heap.

(* ------------------------------------------------------------------------- *)
(** ** Measures and listings of a tree *)
(* ------------------------------------------------------------------------- *)

(** The number of nodes: one vector entry per node in a flattening, one
    object per node in a copy. *)
Fixpoint node_count (e : Expr) : nat :=
  match e with
  | ENumericConstant _ _ => 1%nat
  | EBinaryAddition l r _ => S (node_count l + node_count r)
  end.

(** The values of the leaves, left to right. *)
Definition leaf_values (e : Expr) : list Numeric := (leaves e).*1.

(** The exact sum of a list of values; a wildcard counts for [0]. *)
Fixpoint sum_values (l : list Numeric) : Z :=
  match l with
  | [] => 0
  | Value v :: l' => v + sum_values l'
  | AnyNumber :: l' => sum_values l'
  end.

(** The binding names of the wildcard leaves, left to right. *)
Fixpoint wildcard_names (e : Expr) : list Identifier :=
  match e with
  | ENumericConstant AnyNumber id => [id]
  | ENumericConstant (Value _) _ => []
  | EBinaryAddition l r _ => wildcard_names l ++ wildcard_names r
  end.

(** The concrete leaf values other than [0], left to right. *)
Fixpoint nonzero_values (e : Expr) : list Z :=
  match e with
  | ENumericConstant (Value v) _ => if v =? 0 then [] else [v]
  | ENumericConstant AnyNumber _ => []
  | EBinaryAddition l r _ => nonzero_values l ++ nonzero_values r
  end.

(** The name [id] is bound by the pattern [input] to a numeric leaf: the
    first entry equal to [id] in the flattened names of [input] stands at
    the index of a numeric node of [input]. *)
Definition binds_leaf (input : Expr) (id : Identifier) : Prop :=
  exists v i,
    FlattenExpressionsTo input []
      !! find_distance (FlattenIdentifiersTo input []) id
    = Some (ENumericConstant v i).

(* ------------------------------------------------------------------------- *)
(** ** Relations between the input and the output of a pass, and a sample
       store *)
(* ------------------------------------------------------------------------- *)

(** How the output of a pass relates to its input, node by node: a leaf is
    reproduced, value and name; an addition is either replaced as a whole by
    a leaf without a name, or rebuilt without a name around the outputs of
    its children. *)
Inductive rewrites_to : Expr -> Expr -> Prop :=
| rewrites_clone v id :
    rewrites_to (ENumericConstant v id) (ENumericConstant v id)
| rewrites_replace l r id v :
    rewrites_to (EBinaryAddition l r id) (ENumericConstant v NULL_ID)
| rewrites_rebuild l r id l' r' :
    rewrites_to l l' -> rewrites_to r r' ->
    rewrites_to (EBinaryAddition l r id) (EBinaryAddition l' r' NULL_ID).

(** What a pass keeps of a wildcard-free tree of [std::size_t] leaves. *)
Definition preserves_value (t t' : Expr) : Prop :=
  has_wildcard t = false -> values_in_size_t t ->
  has_wildcard t' = false /\ values_in_size_t t' /\ Evaluate t' = Evaluate t.

(** What one pass of [transform] does to the binding names. *)
Definition names_after_pass (transform : Transform) (t t' : Expr) : Prop :=
  addition_ids_empty t'
  /\ (forall v id, (v, id) ∈ leaves t' -> id <> NULL_ID -> (v, id) ∈ leaves t)
  /\ (no_match_in transform t -> t' = clear_addition_ids t).
(** The tree [0 + 1] of [main.cpp], with names, laid out in three cells. *)
Definition store_0_plus_1 : gmap positive Heap.cell :=
  <[3%positive := Heap.CBinaryAddition 1 2 "root"]>
    (<[2%positive := Heap.CNumericConstant (Value 1) "b"]>
       (<[1%positive := Heap.CNumericConstant (Value 0) "a"]> ∅)).

(** The same store with one more cell: the leaf [9], owned by no tree yet. *)
Definition store_0_plus_1_and_9 : gmap positive Heap.cell :=
  <[4%positive := Heap.CNumericConstant (Value 9) "n"]> store_0_plus_1.

Definition tree_0_plus_1 : Expr :=
  EBinaryAddition (ENumericConstant (Value 0) "a")
                  (ENumericConstant (Value 1) "b") "root".


(* ------------------------------------------------------------------------- *)
(** ** The driver of [main.cpp] *)
(* ------------------------------------------------------------------------- *)

Example main_leftwise :
  Optimize (BinaryAddition.Make (NumericConstant.Make (Value 0))
                                (NumericConstant.Make (Value 1)))
  = Some (ENumericConstant (Value 1) "").
Proof. reflexivity. Qed.

Example main_rightwise :
  Optimize (BinaryAddition.Make (NumericConstant.Make (Value 1))
                                (NumericConstant.Make (Value 0)))
  = Some (ENumericConstant (Value 1) "").
Proof. reflexivity. Qed.

(* ------------------------------------------------------------------------- *)
(** ** The matcher *)
(* ------------------------------------------------------------------------- *)

Lemma Match_numeric v0 id0 v1 id1 :
  Match (ENumericConstant v0 id0) (ENumericConstant v1 id1)
  = match v0, v1 with
    | Value a, Value b => a =? b
    | _, _ => true
    end.
Proof. reflexivity. Qed.

Lemma Match_addition pl pr pid ql qr qid :
  Match (EBinaryAddition pl pr pid) (EBinaryAddition ql qr qid)
  = Match pl ql && Match pr qr.
Proof. reflexivity. Qed.

Lemma Match_Type_neq p q : Type_ p <> Type_ q -> Match p q = false.
Proof. destruct p, q; simpl; congruence. Qed.

Lemma Match_strip_ids p q : Match (strip_ids p) (strip_ids q) = Match p q.
Proof.
  revert q. induction p as [v0 id0 | pl IHl pr IHr pid]; intros [v1 id1 | ql qr qid];
    try reflexivity.
  rewrite Match_addition. simpl strip_ids. rewrite Match_addition.
  by rewrite IHl, IHr.
Qed.

(** Claim C3.  [Match] returns [false] on nodes of different types; on two
    additions it is the conjunction of the match of the left children and of
    the match of the right children; on two numeric nodes it is [true] exactly
    when one of them is a wildcard or both hold the same value; and the
    binding names play no role: erasing all of them on both sides leaves the
    result unchanged. *)
Theorem Match_spec :
  (forall p q, Type_ p <> Type_ q -> Match p q = false)
  /\ (forall pl pr pid ql qr qid,
        Match (EBinaryAddition pl pr pid) (EBinaryAddition ql qr qid) = true
        <-> Match pl ql = true /\ Match pr qr = true)
  /\ (forall v0 id0 v1 id1,
        Match (ENumericConstant v0 id0) (ENumericConstant v1 id1) = true
        <-> v0 = AnyNumber \/ v1 = AnyNumber
            \/ exists k, v0 = Value k /\ v1 = Value k)
  /\ (forall p q, Match p q = Match (strip_ids p) (strip_ids q)).
Proof.
  split; [exact Match_Type_neq|].
  split.
  { intros. rewrite Match_addition. apply andb_true_iff. }
  split.
  { intros v0 id0 v1 id1. rewrite Match_numeric.
    destruct v0 as [a|], v1 as [b|]; split; intros H; auto.
    - apply Z.eqb_eq in H. subst. right. right. by exists b.
    - destruct H as [H | [H | (k & H0 & H1)]]; try discriminate.
      inversion H0; inversion H1; subst. apply Z.eqb_refl. }
  intros. symmetry. apply Match_strip_ids.
Qed.

(** Claim C8.  [Match] gives the same answer when pattern and query are
    exchanged. *)
Theorem Match_sym (a b : Expr) : Match a b = Match b a.
Proof.
  revert b. induction a as [v0 id0 | al IHl ar IHr aid]; intros [v1 id1 | bl br bid];
    try reflexivity.
  - rewrite !Match_numeric. destruct v0, v1; try reflexivity. apply Z.eqb_sym.
  - rewrite !Match_addition. by rewrite IHl, IHr.
Qed.

(* ------------------------------------------------------------------------- *)
(** ** Evaluation *)
(* ------------------------------------------------------------------------- *)

Lemma Evaluate_addition l r id :
  Evaluate (EBinaryAddition l r id)
  = match Evaluate l, Evaluate r with
    | Some a, Some b => Some (size_t_add a b)
    | _, _ => None
    end.
Proof. simpl. destruct (Evaluate l), (Evaluate r); reflexivity. Qed.

Lemma Evaluate_None_iff t : Evaluate t = None <-> has_wildcard t = true.
Proof.
  induction t as [[v|] id | l IHl r IHr id].
  - simpl. split; discriminate.
  - simpl. tauto.
  - rewrite Evaluate_addition. simpl has_wildcard. rewrite orb_true_iff.
    rewrite <- IHl, <- IHr.
    destruct (Evaluate l), (Evaluate r); split; intros H; auto; try discriminate;
      destruct H; discriminate.
Qed.

(** Claim C5.  [Evaluate] has no result exactly on the trees that contain a
    wildcard leaf (the [assert] fails there; without it [std::get] throws
    [std::bad_variant_access]), and it returns a number exactly on the trees
    that contain none. *)
Theorem Evaluate_aborts_iff_wildcard (t : Expr) :
  (Evaluate t = None <-> has_wildcard t = true)
  /\ ((exists n, Evaluate t = Some n) <-> has_wildcard t = false).
Proof.
  split; [apply Evaluate_None_iff|].
  split.
  - intros [n Hn]. destruct (has_wildcard t) eqn:E; [|reflexivity].
    apply Evaluate_None_iff in E. congruence.
  - intros H. destruct (Evaluate t) as [n|] eqn:E; [by exists n|].
    apply Evaluate_None_iff in E. congruence.
Qed.

Example Evaluate_wildcard_deep :
  Evaluate (EBinaryAddition
              (ENumericConstant (Value 1) "")
              (EBinaryAddition (ENumericConstant (Value 2) "")
                               (ENumericConstant AnyNumber "x") "") "")
  = None.
Proof. reflexivity. Qed.

Example Evaluate_2_plus_3 :
  Evaluate (EBinaryAddition (ENumericConstant (Value 2) "")
                            (ENumericConstant (Value 3) "") "")
  = Some 5.
Proof. reflexivity. Qed.

Lemma size_t_modulus_pos : 0 < size_t_modulus.
Proof. reflexivity. Qed.

Lemma size_t_add_range a b : in_size_t (size_t_add a b).
Proof. apply Z.mod_pos_bound, size_t_modulus_pos. Qed.

Lemma Evaluate_mod t :
  has_wildcard t = false -> values_in_size_t t ->
  Evaluate t = Some (leaf_sum t mod size_t_modulus).
Proof.
  induction t as [[v|] id | l IHl r IHr id]; simpl; intros Hw Hv.
  - f_equal. symmetry. by apply Z.mod_small.
  - discriminate.
  - apply orb_false_iff in Hw as [Hl Hr]. destruct Hv as [Hvl Hvr].
    rewrite IHl, IHr by assumption. simpl. f_equal.
    unfold size_t_add. symmetry. apply Zplus_mod.
Qed.

Lemma Evaluate_in_size_t t n :
  values_in_size_t t -> Evaluate t = Some n -> in_size_t n.
Proof.
  destruct t as [[v|] id | l r id]; simpl; intros Hv H.
  - by inversion H; subst.
  - discriminate.
  - destruct (Evaluate l), (Evaluate r); simpl in H; try discriminate.
    inversion H. apply size_t_add_range.
Qed.

(** Claim C4, as stated, fails: the sum of the leaves [2^64 - 1] and [1] is
    [2^64], and [Evaluate] returns [0]. *)
Lemma Evaluate_exact_sum_counterexample :
  let t := EBinaryAddition (ENumericConstant (Value (2 ^ 64 - 1)) "")
                           (ENumericConstant (Value 1) "") "" in
  has_wildcard t = false
  /\ values_in_size_t t
  /\ Evaluate t = Some 0
  /\ leaf_sum t = 2 ^ 64
  /\ Evaluate t <> Some (leaf_sum t).
Proof.
  simpl. unfold in_size_t.
  repeat split; try reflexivity; try discriminate.
Qed.

(** Claim C4, amended.  On a wildcard-free tree whose leaves hold
    [std::size_t] values, [Evaluate] returns the sum of the leaves reduced
    modulo [2^64]; it is the exact sum whenever that sum is below [2^64].  A
    concrete numeric node evaluates to its value and an addition node to the
    [std::size_t] sum of the results of its children. *)
Theorem Evaluate_leaf_sum_mod (t : Expr) :
  has_wildcard t = false -> values_in_size_t t ->
  Evaluate t = Some (leaf_sum t mod size_t_modulus)
  /\ (leaf_sum t < size_t_modulus -> Evaluate t = Some (leaf_sum t))
  /\ (forall v id, Evaluate (ENumericConstant (Value v) id) = Some v)
  /\ (forall l r id a b,
        Evaluate l = Some a -> Evaluate r = Some b ->
        Evaluate (EBinaryAddition l r id) = Some ((a + b) mod 2 ^ 64)).
Proof.
  intros Hw Hv. split; [by apply Evaluate_mod|]. split.
  - intros Hlt. rewrite Evaluate_mod by assumption. f_equal.
    apply Z.mod_small. split; [|assumption].
    clear Hlt Hw. induction t as [[v|] id | l IHl r IHr id]; simpl in *.
    + apply Hv.
    + lia.
    + destruct Hv. specialize (IHl ltac:(assumption)).
      specialize (IHr ltac:(assumption)). lia.
  - split; [reflexivity|].
    intros l r id a b Ha Hb. simpl. rewrite Ha, Hb. reflexivity.
Qed.

Lemma Evaluate_leaf_sum_mod_witness :
  let t := EBinaryAddition (ENumericConstant (Value 2) "")
                           (ENumericConstant (Value 3) "") "" in
  Evaluate t = Some (leaf_sum t mod size_t_modulus)
  /\ (leaf_sum t < size_t_modulus -> Evaluate t = Some (leaf_sum t))
  /\ (forall v id, Evaluate (ENumericConstant (Value v) id) = Some v)
  /\ (forall l r id a b,
        Evaluate l = Some a -> Evaluate r = Some b ->
        Evaluate (EBinaryAddition l r id) = Some ((a + b) mod 2 ^ 64)).
Proof.
  apply (Evaluate_leaf_sum_mod
           (EBinaryAddition (ENumericConstant (Value 2) "")
                            (ENumericConstant (Value 3) "") "")).
  - reflexivity.
  - simpl. unfold in_size_t, size_t_modulus, size_t_bits. lia.
Defined.

(* ------------------------------------------------------------------------- *)
(** ** Flattening and the positional correspondence *)
(* ------------------------------------------------------------------------- *)

Lemma FlattenExpressionsTo_app root acc :
  FlattenExpressionsTo root acc = acc ++ FlattenExpressionsTo root [].
Proof.
  revert acc. induction root as [v id | l IHl r IHr id]; intros acc; simpl.
  - reflexivity.
  - rewrite (IHr (FlattenExpressionsTo l acc)), (IHr (FlattenExpressionsTo l [])).
    rewrite (IHl acc). by rewrite <- !app_assoc.
Qed.

Lemma FlattenIdentifiersTo_app root acc :
  FlattenIdentifiersTo root acc = acc ++ FlattenIdentifiersTo root [].
Proof.
  revert acc. induction root as [v id | l IHl r IHr id]; intros acc; simpl.
  - reflexivity.
  - rewrite (IHr (FlattenIdentifiersTo l acc)), (IHr (FlattenIdentifiersTo l [])).
    rewrite (IHl acc). by rewrite <- !app_assoc.
Qed.

(** The flattened expressions are the nodes at the post-order positions. *)
Lemma FlattenExpressionsTo_post_order q :
  Forall2 (fun e pos => node_at q pos = Some e)
          (FlattenExpressionsTo q []) (post_order q).
Proof.
  induction q as [v id | l IHl r IHr id];
    cbn [FlattenExpressionsTo post_order].
  - by repeat constructor.
  - rewrite (FlattenExpressionsTo_app r), <- app_assoc.
    apply Forall2_app; [|apply Forall2_app].
    + apply Forall2_fmap_r. eapply Forall2_impl; [exact IHl|]. by intros.
    + apply Forall2_fmap_r. eapply Forall2_impl; [exact IHr|]. by intros.
    + by repeat constructor.
Qed.

(** The flattened identifiers are the names at the post-order positions. *)
Lemma FlattenIdentifiersTo_post_order p :
  Forall2 (fun id pos => exists n, node_at p pos = Some n /\ Id n = id)
          (FlattenIdentifiersTo p []) (post_order p).
Proof.
  induction p as [v id | l IHl r IHr id];
    cbn [FlattenIdentifiersTo post_order].
  - repeat constructor. by eexists.
  - rewrite (FlattenIdentifiersTo_app r), <- app_assoc.
    apply Forall2_app; [|apply Forall2_app].
    + apply Forall2_fmap_r. eapply Forall2_impl; [exact IHl|]. by intros.
    + apply Forall2_fmap_r. eapply Forall2_impl; [exact IHr|]. by intros.
    + repeat constructor. by eexists.
Qed.

(** A pattern and a query that match have the same positions. *)
Lemma Match_post_order p q : Match p q = true -> post_order p = post_order q.
Proof.
  revert q. induction p as [v0 id0 | pl IHl pr IHr pid];
    intros [v1 id1 | ql qr qid]; try discriminate; try reflexivity.
  rewrite Match_addition. intros [Hl Hr]%andb_true_iff. simpl.
  by rewrite (IHl _ Hl), (IHr _ Hr).
Qed.

(** Claim C6.  When the pattern matches the query, the flattened binding
    names of the pattern and the flattened nodes of the query have the same
    length, and at every index the name is the name of the pattern node, and
    the node is the query node, found at one and the same tree position (the
    position that the post-order traversal of either tree visits at that
    index). *)
Theorem Match_positional_correspondence (p q : Expr) :
  Match p q = true ->
  let identifiers := FlattenIdentifiersTo p [] in
  let expressions := FlattenExpressionsTo q [] in
  length identifiers = length expressions
  /\ forall i, (i < length identifiers)%nat ->
       exists pos pn qn,
         post_order p !! i = Some pos /\ post_order q !! i = Some pos
         /\ node_at p pos = Some pn /\ node_at q pos = Some qn
         /\ identifiers !! i = Some (Id pn) /\ expressions !! i = Some qn.
Proof.
  intros HM ids es.
  pose proof (FlattenIdentifiersTo_post_order p) as Hp.
  pose proof (FlattenExpressionsTo_post_order q) as Hq.
  pose proof (Match_post_order _ _ HM) as Hpos.
  fold ids in Hp. fold es in Hq.
  split.
  { rewrite (Forall2_length _ _ _ Hp), (Forall2_length _ _ _ Hq). by rewrite Hpos. }
  intros i Hi.
  destruct (lookup_lt_is_Some_2 ids i Hi) as [id Hid].
  destruct (Forall2_lookup_l _ _ _ _ _ Hp Hid) as (pos & Hpi & pn & Hpn & <-).
  assert (Hqi : post_order q !! i = Some pos) by (by rewrite <- Hpos).
  destruct (Forall2_lookup_r _ _ _ _ _ Hq Hqi) as (qn & Hes & Hqn).
  by exists pos, pn, qn.
Qed.

Lemma Match_positional_correspondence_witness :
  let p := InputPattern TransformBinaryAdditionWithZeroOnLeft in
  let q := EBinaryAddition (ENumericConstant (Value 0) "a")
                           (ENumericConstant (Value 7) "b") "c" in
  let identifiers := FlattenIdentifiersTo p [] in
  let expressions := FlattenExpressionsTo q [] in
  length identifiers = length expressions
  /\ forall i, (i < length identifiers)%nat ->
       exists pos pn qn,
         post_order p !! i = Some pos /\ post_order q !! i = Some pos
         /\ node_at p pos = Some pn /\ node_at q pos = Some qn
         /\ identifiers !! i = Some (Id pn) /\ expressions !! i = Some qn.
Proof.
  apply (Match_positional_correspondence
           (InputPattern TransformBinaryAdditionWithZeroOnLeft)
           (EBinaryAddition (ENumericConstant (Value 0) "a")
                            (ENumericConstant (Value 7) "b") "c")).
  reflexivity.
Defined.

(* ------------------------------------------------------------------------- *)
(** ** One pass of a transform *)
(* ------------------------------------------------------------------------- *)

Lemma Clone_id t : Clone t = t.
Proof.
  induction t as [v id | l IHl r IHr id]; simpl; [reflexivity|].
  unfold BinaryAddition.MakeId. by rewrite IHl, IHr.
Qed.

(** Where the left-zero rule matches, and what it produces there. *)
Lemma hit_left l r id :
  Match (InputPattern TransformBinaryAdditionWithZeroOnLeft)
        (EBinaryAddition l r id) = true ->
  exists v0 i0 v1 i1,
    l = ENumericConstant v0 i0 /\ r = ENumericConstant v1 i1
    /\ (v0 = Value 0 \/ v0 = AnyNumber)
    /\ ApplyTransformAt TransformBinaryAdditionWithZeroOnLeft
         (EBinaryAddition l r id) = Some (ENumericConstant v1 "").
Proof.
  destruct l as [v0 i0 | ? ? ?]; [|discriminate].
  destruct r as [v1 i1 | ? ? ?]; [|by destruct v0 as [[]|]].
  intros H. exists v0, i0, v1, i1. repeat split; try reflexivity.
  destruct v0 as [a|]; [|by right]. left.
  cbn in H. by destruct a.
Qed.

(** Where the right-zero rule matches, and what it produces there. *)
Lemma hit_right l r id :
  Match (InputPattern TransformBinaryAdditionWithZeroOnRight)
        (EBinaryAddition l r id) = true ->
  exists v0 i0 v1 i1,
    l = ENumericConstant v0 i0 /\ r = ENumericConstant v1 i1
    /\ (v1 = Value 0 \/ v1 = AnyNumber)
    /\ ApplyTransformAt TransformBinaryAdditionWithZeroOnRight
         (EBinaryAddition l r id) = Some (ENumericConstant v0 "").
Proof.
  destruct l as [v0 i0 | ? ? ?]; [|discriminate].
  destruct r as [v1 i1 | ? ? ?]; [|discriminate].
  intros H. exists v0, i0, v1, i1. repeat split; try reflexivity.
  destruct v1 as [b|]; [|by right]. left.
  cbn in H. by destruct b.
Qed.

(** An induction principle that follows the branches of [ApplyTransform]:
    a relation between input and output that holds for a cloned leaf, for the
    replacement built at a match, and is preserved when an addition is
    reassembled, holds for the whole pass; and the pass has a result. *)
Section OnePass.
Variable transform : Transform.
Variable P : Expr -> Expr -> Prop.
Hypothesis P_leaf : forall v id, P (ENumericConstant v id) (ENumericConstant v id).
Hypothesis P_hit : forall l r id,
  Match (InputPattern transform) (EBinaryAddition l r id) = true ->
  exists t', ApplyTransformAt transform (EBinaryAddition l r id) = Some t'
             /\ P (EBinaryAddition l r id) t'.
Hypothesis P_miss : forall l r id l' r',
  Match (InputPattern transform) (EBinaryAddition l r id) = false ->
  P l l' -> P r r' ->
  P (EBinaryAddition l r id) (EBinaryAddition l' r' "").

Lemma ApplyTransform_rel t :
  exists t', ApplyTransform transform t = Some t' /\ P t t'.
Proof using P_leaf P_hit P_miss.
  induction t as [v id | l IHl r IHr id].
  - exists (ENumericConstant v id). split; [reflexivity | apply P_leaf].
  - cbn [ApplyTransform].
    destruct (Match (InputPattern transform) (EBinaryAddition l r id)) eqn:HM.
    + by apply P_hit.
    + destruct IHl as (l' & -> & Hl). destruct IHr as (r' & -> & Hr).
      exists (EBinaryAddition l' r' ""). split; [reflexivity|].
      by apply P_miss.
Qed.

End OnePass.

(** The transforms of [Optimize], in order. *)
Lemma Optimize_unfold t :
  Optimize t
  = ApplyTransform TransformBinaryAdditionWithZeroOnLeft t
      ≫= ApplyTransform TransformBinaryAdditionWithZeroOnRight.
Proof. reflexivity. Qed.

(** Two passes in a row: what holds of the pair (input, output) of each
    pass holds of the two steps of [Optimize]. *)
Lemma Optimize_rel (P1 P2 : Expr -> Expr -> Prop) t :
  (forall t, exists t',
      ApplyTransform TransformBinaryAdditionWithZeroOnLeft t = Some t' /\ P1 t t') ->
  (forall t, exists t',
      ApplyTransform TransformBinaryAdditionWithZeroOnRight t = Some t' /\ P2 t t') ->
  exists t1 t2,
    ApplyTransform TransformBinaryAdditionWithZeroOnLeft t = Some t1
    /\ Optimize t = Some t2 /\ P1 t t1 /\ P2 t1 t2.
Proof.
  intros H1 H2. rewrite Optimize_unfold.
  destruct (H1 t) as (t1 & E1 & HP1). destruct (H2 t1) as (t2 & E2 & HP2).
  exists t1, t2. rewrite E1. simpl. by rewrite E2.
Qed.

(** [Optimize] has a result on every tree. *)
Lemma Optimize_total t : exists t', Optimize t = Some t'.
Proof.
  destruct (Optimize_rel (fun _ _ => True) (fun _ _ => True) t) as (t1 & t2 & _ & E & _).
  - apply ApplyTransform_rel; try done.
    intros l r id (v0 & i0 & v1 & i1 & _ & _ & _ & ->)%hit_left. by eexists.
  - apply ApplyTransform_rel; try done.
    intros l r id (v0 & i0 & v1 & i1 & _ & _ & _ & ->)%hit_right. by eexists.
  - by exists t2.
Qed.

(* ------------------------------------------------------------------------- *)
(** ** Optimization preserves the value *)
(* ------------------------------------------------------------------------- *)

Lemma size_t_add_0_l v : in_size_t v -> size_t_add 0 v = v.
Proof. intros H. unfold size_t_add. rewrite Z.add_0_l. by apply Z.mod_small. Qed.

Lemma size_t_add_0_r v : in_size_t v -> size_t_add v 0 = v.
Proof. intros H. unfold size_t_add. rewrite Z.add_0_r. by apply Z.mod_small. Qed.

Lemma preserves_value_miss l r id l' r' :
  preserves_value l l' -> preserves_value r r' ->
  preserves_value (EBinaryAddition l r id) (EBinaryAddition l' r' "").
Proof.
  intros Hl Hr Hw Hv. cbn in Hw, Hv. apply orb_false_iff in Hw as [Hwl Hwr].
  destruct Hv as [Hvl Hvr].
  destruct (Hl Hwl Hvl) as (Hwl' & Hvl' & El).
  destruct (Hr Hwr Hvr) as (Hwr' & Hvr' & Er).
  cbn. rewrite Hwl', Hwr', El, Er. by repeat split.
Qed.

Lemma ApplyTransform_left_preserves_value t :
  exists t', ApplyTransform TransformBinaryAdditionWithZeroOnLeft t = Some t'
             /\ preserves_value t t'.
Proof.
  apply ApplyTransform_rel.
  - by intros v id Hw Hv.
  - intros l r id (v0 & i0 & v1 & i1 & -> & -> & Hz & ->)%hit_left.
    eexists; split; [reflexivity|]. intros Hw Hv.
    destruct Hz as [-> | ->]; [|discriminate].
    destruct v1 as [b|]; [|discriminate]. cbn in Hv. destruct Hv as [_ Hb].
    cbn. repeat split; try apply Hb. by rewrite size_t_add_0_l.
  - intros. by apply preserves_value_miss.
Qed.

Lemma ApplyTransform_right_preserves_value t :
  exists t', ApplyTransform TransformBinaryAdditionWithZeroOnRight t = Some t'
             /\ preserves_value t t'.
Proof.
  apply ApplyTransform_rel.
  - by intros v id Hw Hv.
  - intros l r id (v0 & i0 & v1 & i1 & -> & -> & Hz & ->)%hit_right.
    eexists; split; [reflexivity|]. intros Hw Hv.
    destruct v0 as [a|]; [|discriminate].
    destruct Hz as [-> | ->]; [|discriminate].
    cbn in Hv. destruct Hv as [Ha _].
    cbn. repeat split; try apply Ha. by rewrite size_t_add_0_r.
  - intros. by apply preserves_value_miss.
Qed.

(** Claim C1.  On a wildcard-free tree (of [std::size_t] leaves) [Optimize]
    returns a tree, and evaluating that tree gives the result of evaluating
    the input, which is a number. *)
Theorem Optimize_preserves_Evaluate (t : Expr) :
  has_wildcard t = false -> values_in_size_t t ->
  exists t' n,
    Optimize t = Some t' /\ Evaluate t = Some n /\ Evaluate t' = Some n.
Proof.
  intros Hw Hv.
  destruct (Optimize_rel preserves_value preserves_value t
              ApplyTransform_left_preserves_value
              ApplyTransform_right_preserves_value)
    as (t1 & t2 & _ & E & P1 & P2).
  destruct (P1 Hw Hv) as (Hw1 & Hv1 & E1).
  destruct (P2 Hw1 Hv1) as (_ & _ & E2).
  destruct (Evaluate t) as [n|] eqn:En.
  - exists t2, n. repeat split; [assumption | congruence].
  - apply Evaluate_None_iff in En. congruence.
Qed.

Lemma Optimize_preserves_Evaluate_witness :
  exists t' n,
    Optimize (EBinaryAddition
                (EBinaryAddition (ENumericConstant (Value 0) "")
                                 (ENumericConstant (Value 4) "x") "")
                (EBinaryAddition (ENumericConstant (Value 5) "")
                                 (ENumericConstant (Value 0) "") "y") "z")
    = Some t'
    /\ Evaluate (EBinaryAddition
                   (EBinaryAddition (ENumericConstant (Value 0) "")
                                    (ENumericConstant (Value 4) "x") "")
                   (EBinaryAddition (ENumericConstant (Value 5) "")
                                    (ENumericConstant (Value 0) "") "y") "z")
       = Some n
    /\ Evaluate t' = Some n.
Proof.
  apply Optimize_preserves_Evaluate.
  - reflexivity.
  - cbn. unfold in_size_t, size_t_modulus, size_t_bits. lia.
Defined.

(* ------------------------------------------------------------------------- *)
(** ** The rules on [0 + N], [N + 0] and on leaves *)
(* ------------------------------------------------------------------------- *)

(** Claim C2.  [Optimize] turns [0 + N] into the single numeric leaf [N], and
    [N + 0] into a tree that evaluates to [N], whatever the binding names of
    the three nodes are. *)
Theorem Optimize_zero_rules (N : Z) (id0 idN idA : Identifier) :
  Optimize (EBinaryAddition (ENumericConstant (Value 0) id0)
                            (ENumericConstant (Value N) idN) idA)
  = Some (ENumericConstant (Value N) "")
  /\ exists t',
       Optimize (EBinaryAddition (ENumericConstant (Value N) idN)
                                 (ENumericConstant (Value 0) id0) idA)
       = Some t'
       /\ Evaluate t' = Some N.
Proof.
  split; [reflexivity|].
  exists (ENumericConstant (Value N) "").
  destruct N; split; reflexivity.
Qed.

(** Claim C10.  On a single concrete numeric leaf [Optimize] returns the same
    leaf: same value, same binding name. *)
Theorem Optimize_leaf (v : Z) (id : Identifier) :
  Optimize (ENumericConstant (Value v) id) = Some (ENumericConstant (Value v) id).
Proof. reflexivity. Qed.

(* ------------------------------------------------------------------------- *)
(** ** Binding names in the output *)
(* ------------------------------------------------------------------------- *)

Lemma Match_clear_addition_ids p t : Match p (clear_addition_ids t) = Match p t.
Proof.
  revert t. induction p as [v0 id0 | pl IHl pr IHr pid]; intros [v1 id1 | l r id];
    try reflexivity.
  cbn [clear_addition_ids]. rewrite !Match_addition. by rewrite IHl, IHr.
Qed.

Lemma no_match_in_clear_addition_ids transform t :
  no_match_in transform t -> no_match_in transform (clear_addition_ids t).
Proof.
  induction t as [v id | l IHl r IHr id]; [done|].
  intros (HM & Hl & Hr). cbn [clear_addition_ids no_match_in].
  split; [|by auto].
  rewrite <- HM. apply (Match_clear_addition_ids _ (EBinaryAddition l r id)).
Qed.

Lemma clear_addition_ids_idemp t :
  clear_addition_ids (clear_addition_ids t) = clear_addition_ids t.
Proof. induction t as [v id | l IHl r IHr id]; simpl; congruence. Qed.

Lemma names_after_pass_miss transform l r id l' r' :
  Match (InputPattern transform) (EBinaryAddition l r id) = false ->
  names_after_pass transform l l' -> names_after_pass transform r r' ->
  names_after_pass transform (EBinaryAddition l r id) (EBinaryAddition l' r' "").
Proof.
  intros _ (Al & Ll & Nl) (Ar & Lr & Nr). repeat split; try assumption.
  - intros v i [H|H]%elem_of_app Hne; cbn [leaves]; apply elem_of_app; auto.
  - intros (_ & Hl & Hr). cbn [clear_addition_ids]. by rewrite Nl, Nr.
Qed.

Lemma names_after_pass_hit transform l r id v :
  Match (InputPattern transform) (EBinaryAddition l r id) = true ->
  names_after_pass transform (EBinaryAddition l r id) (ENumericConstant v "").
Proof.
  intros HM. repeat split.
  - intros v' i [= -> ->]%list_elem_of_singleton Hne. by destruct Hne.
  - intros (HM' & _). congruence.
Qed.

Lemma names_after_pass_leaf transform v id :
  names_after_pass transform (ENumericConstant v id) (ENumericConstant v id).
Proof. by repeat split. Qed.

Lemma ApplyTransform_left_names t :
  exists t', ApplyTransform TransformBinaryAdditionWithZeroOnLeft t = Some t'
             /\ names_after_pass TransformBinaryAdditionWithZeroOnLeft t t'.
Proof.
  apply ApplyTransform_rel.
  - apply names_after_pass_leaf.
  - intros l r id HM.
    destruct (hit_left _ _ _ HM) as (v0 & i0 & v1 & i1 & _ & _ & _ & ->).
    eexists; split; [reflexivity|]. by apply names_after_pass_hit.
  - apply names_after_pass_miss.
Qed.

Lemma ApplyTransform_right_names t :
  exists t', ApplyTransform TransformBinaryAdditionWithZeroOnRight t = Some t'
             /\ names_after_pass TransformBinaryAdditionWithZeroOnRight t t'.
Proof.
  apply ApplyTransform_rel.
  - apply names_after_pass_leaf.
  - intros l r id HM.
    destruct (hit_right _ _ _ HM) as (v0 & i0 & v1 & i1 & _ & _ & _ & ->).
    eexists; split; [reflexivity|]. by apply names_after_pass_hit.
  - apply names_after_pass_miss.
Qed.

(** The statement of C9 holds of every tree, wildcard-free or not. *)
Lemma Optimize_names t :
  exists t',
    Optimize t = Some t'
    /\ addition_ids_empty t'
    /\ (forall v id, (v, id) ∈ leaves t' -> id <> NULL_ID -> (v, id) ∈ leaves t)
    /\ (no_match_in TransformBinaryAdditionWithZeroOnLeft t ->
        no_match_in TransformBinaryAdditionWithZeroOnRight t ->
        t' = clear_addition_ids t).
Proof.
  destruct (Optimize_rel _ _ t ApplyTransform_left_names ApplyTransform_right_names)
    as (t1 & t2 & _ & E & (A1 & L1 & N1) & (A2 & L2 & N2)).
  exists t2. repeat split; try assumption.
  - intros v id H Hne. by apply L1; [apply L2|].
  - intros HL HR. specialize (N1 HL). subst t1.
    rewrite N2 by (by apply no_match_in_clear_addition_ids).
    apply clear_addition_ids_idemp.
Qed.

Lemma rewrites_to_trans t1 t2 t3 :
  rewrites_to t1 t2 -> rewrites_to t2 t3 -> rewrites_to t1 t3.
Proof.
  intros H12. revert t3.
  induction H12 as [v id | l r id v | l r id l' r' Hl IHl Hr IHr];
    intros t3 H23; inversion H23; subst; constructor; auto.
Qed.

(** A node of the output that carries a name is a leaf that stands, with
    that value and name, at the same position of the input. *)
Lemma rewrites_to_named t t' :
  rewrites_to t t' ->
  forall pos n', node_at t' pos = Some n' -> Id n' <> NULL_ID ->
                 node_at t pos = Some n'.
Proof.
  induction 1 as [v id | l r id v | l r id l' r' Hl IHl Hr IHr];
    intros pos n' Hn Hne.
  - assumption.
  - destruct pos as [|d pos]; [|discriminate].
    injection Hn as <-. by destruct Hne.
  - destruct pos as [|[] pos]; cbn in Hn |- *.
    + injection Hn as <-. by destruct Hne.
    + by apply IHl.
    + by apply IHr.
Qed.

(** A leaf of the input is still that leaf, value and name, wherever the
    output has a node at its position. *)
Lemma rewrites_to_leaf t t' :
  rewrites_to t t' ->
  forall pos v id n',
    node_at t pos = Some (ENumericConstant v id) ->
    node_at t' pos = Some n' -> n' = ENumericConstant v id.
Proof.
  induction 1 as [v0 id0 | l r id0 v0 | l r id0 l' r' Hl IHl Hr IHr];
    intros pos v id n' Ht Hn.
  - congruence.
  - destruct pos as [|d pos]; discriminate.
  - destruct pos as [|[] pos]; cbn in Ht, Hn.
    + discriminate.
    + by apply (IHl pos).
    + by apply (IHr pos).
Qed.

Lemma addition_ids_empty_node t pos l r id :
  addition_ids_empty t -> node_at t pos = Some (EBinaryAddition l r id) ->
  id = NULL_ID.
Proof.
  revert t. induction pos as [|d pos IH];
    intros [v0 id0 | l' r' id'] Hadd Hn; cbn in Hn; try discriminate.
  - injection Hn as -> -> ->. by destruct Hadd as [? _].
  - destruct Hadd as (_ & Hl & Hr). destruct d; eauto.
Qed.

Lemma ApplyTransform_left_rewrites t :
  exists t', ApplyTransform TransformBinaryAdditionWithZeroOnLeft t = Some t'
             /\ rewrites_to t t'.
Proof.
  apply (ApplyTransform_rel _ rewrites_to).
  - constructor.
  - intros l r id (v0 & i0 & v1 & i1 & _ & _ & _ & ->)%hit_left.
    eexists; split; [reflexivity | constructor].
  - intros l r id l' r' _ Hl Hr. by constructor.
Qed.

Lemma ApplyTransform_right_rewrites t :
  exists t', ApplyTransform TransformBinaryAdditionWithZeroOnRight t = Some t'
             /\ rewrites_to t t'.
Proof.
  apply (ApplyTransform_rel _ rewrites_to).
  - constructor.
  - intros l r id (v0 & i0 & v1 & i1 & _ & _ & _ & ->)%hit_right.
    eexists; split; [reflexivity | constructor].
  - intros l r id l' r' _ Hl Hr. by constructor.
Qed.

Lemma Optimize_rewrites t :
  exists t', Optimize t = Some t' /\ rewrites_to t t'.
Proof.
  destruct (Optimize_rel _ _ t ApplyTransform_left_rewrites
                         ApplyTransform_right_rewrites)
    as (t1 & t2 & _ & E & R1 & R2).
  exists t2. split; [done|]. by apply (rewrites_to_trans _ t1).
Qed.

(** Claim C9.  In the tree that [Optimize] returns for a wildcard-free input,
    every addition node carries the empty binding name, whatever the names
    of the input were.  The only nodes of the output that carry a name are
    leaves reproduced by cloning: a named node of the output is a leaf that
    stands, with that value and that name, at the same position of the
    input; a leaf of the input is found unchanged, name included, wherever
    the output still has a node at its position; and a leaf that the output
    has where the input had an addition (a leaf built by a rewrite) carries
    the empty name.  A leaf of the output that carries a non-empty name is
    a leaf of the input; and where neither rule matches any node of the
    input, the output is the input with the names of its addition nodes
    erased and every leaf, name included, kept. *)
Theorem Optimize_addition_ids_empty (t : Expr) :
  has_wildcard t = false ->
  exists t',
    Optimize t = Some t'
    /\ addition_ids_empty t'
    /\ (forall pos n', node_at t' pos = Some n' -> Id n' <> NULL_ID ->
                       node_at t pos = Some n'
                       /\ Type_ n' = NUMERIC_CONSTANT)
    /\ (forall pos v id n',
          node_at t pos = Some (ENumericConstant v id) ->
          node_at t' pos = Some n' -> n' = ENumericConstant v id)
    /\ (forall pos l r id v name,
          node_at t pos = Some (EBinaryAddition l r id) ->
          node_at t' pos = Some (ENumericConstant v name) ->
          name = NULL_ID)
    /\ (forall v id, (v, id) ∈ leaves t' -> id <> NULL_ID -> (v, id) ∈ leaves t)
    /\ (no_match_in TransformBinaryAdditionWithZeroOnLeft t ->
        no_match_in TransformBinaryAdditionWithZeroOnRight t ->
        t' = clear_addition_ids t).
Proof.
  intros _.
  destruct (Optimize_names t) as (t' & E & Hadd & Hleaves & Hclear).
  destruct (Optimize_rewrites t) as (t'' & E' & HR).
  assert (t'' = t') by congruence. subst t''.
  exists t'. split; [done|]. split; [done|].
  assert (Hnamed : forall pos n', node_at t' pos = Some n' -> Id n' <> NULL_ID ->
                                  node_at t pos = Some n')
    by exact (rewrites_to_named _ _ HR).
  split; [|split; [|split; [|split]]]; try done.
  - intros pos n' Hn Hne. split; [by apply Hnamed|].
    destruct n' as [v id | l r id]; [done|]. exfalso.
    by apply Hne, (addition_ids_empty_node t' pos l r id).
  - exact (rewrites_to_leaf _ _ HR).
  - intros pos l r id v name Ht Hn.
    destruct (decide (name = NULL_ID)) as [|Hne]; [done|]. exfalso.
    specialize (Hnamed pos (ENumericConstant v name) Hn Hne). congruence.
Qed.

Lemma Optimize_addition_ids_empty_witness :
  let t := EBinaryAddition
             (EBinaryAddition (ENumericConstant (Value 0) "p")
                              (ENumericConstant (Value 4) "x") "inner")
             (ENumericConstant (Value 5) "y") "outer" in
  exists t',
    Optimize t = Some t'
    /\ addition_ids_empty t'
    /\ (forall pos n', node_at t' pos = Some n' -> Id n' <> NULL_ID ->
                       node_at t pos = Some n'
                       /\ Type_ n' = NUMERIC_CONSTANT)
    /\ (forall pos v id n',
          node_at t pos = Some (ENumericConstant v id) ->
          node_at t' pos = Some n' -> n' = ENumericConstant v id)
    /\ (forall pos l r id v name,
          node_at t pos = Some (EBinaryAddition l r id) ->
          node_at t' pos = Some (ENumericConstant v name) ->
          name = NULL_ID)
    /\ (forall v id, (v, id) ∈ leaves t' -> id <> NULL_ID -> (v, id) ∈ leaves t)
    /\ (no_match_in TransformBinaryAdditionWithZeroOnLeft t ->
        no_match_in TransformBinaryAdditionWithZeroOnRight t ->
        t' = clear_addition_ids t).
Proof.
  apply (Optimize_addition_ids_empty
           (EBinaryAddition
              (EBinaryAddition (ENumericConstant (Value 0) "p")
                               (ENumericConstant (Value 4) "x") "inner")
              (ENumericConstant (Value 5) "y") "outer")).
  reflexivity.
Defined.

(** The rewritten leaf loses its name, the cloned leaf keeps it. *)
Example Optimize_rewritten_leaf_unnamed :
  Optimize (EBinaryAddition
              (EBinaryAddition (ENumericConstant (Value 0) "p")
                               (ENumericConstant (Value 4) "x") "inner")
              (ENumericConstant (Value 5) "y") "outer")
  = Some (EBinaryAddition (ENumericConstant (Value 4) "")
                          (ENumericConstant (Value 5) "y") "").
Proof. reflexivity. Qed.

Example Optimize_keeps_leaf_names :
  Optimize (EBinaryAddition (ENumericConstant (Value 2) "a")
                            (ENumericConstant (Value 3) "b") "c")
  = Some (EBinaryAddition (ENumericConstant (Value 2) "a")
                          (ENumericConstant (Value 3) "b") "").
Proof. reflexivity. Qed.

(* ------------------------------------------------------------------------- *)
(** ** Trees in the store *)
(* ------------------------------------------------------------------------- *)

(** A store that agrees with [h] on the cells of a tree holds the same tree. *)
Lemma repr_frame (h h2 : gmap positive Heap.cell) p t F :
  (forall x, x ∈ F -> h2 !! x = h !! x) ->
  Heap.repr h p t F -> Heap.repr h2 p t F.
Proof.
  revert p F. induction t as [v id | a IHa b IHb id]; intros p F Hagree; cbn.
  - intros [Hp ->]. split; [|done]. rewrite Hagree; [done | set_solver].
  - intros (pa & pb & Fa & Fb & Hp & Ha & Hb & Hd & Hn & ->).
    exists pa, pb, Fa, Fb. repeat split; try done.
    + rewrite Hagree; [done | set_solver].
    + apply IHa; [|done]. intros x Hx. apply Hagree. set_solver.
    + apply IHb; [|done]. intros x Hx. apply Hagree. set_solver.
Qed.

Lemma repr_root (h : gmap positive Heap.cell) p t F :
  Heap.repr h p t F -> p ∈ F.
Proof.
  destruct t; cbn.
  - intros [_ ->]. set_solver.
  - intros (pa & pb & Fa & Fb & _ & _ & _ & _ & _ & ->). set_solver.
Qed.

Lemma repr_dom (h : gmap positive Heap.cell) p t F :
  Heap.repr h p t F -> F ⊆ dom h.
Proof.
  revert p F. induction t as [v id | a IHa b IHb id]; intros p F; cbn.
  - intros [Hp ->]. apply singleton_subseteq_l, elem_of_dom. by eexists.
  - intros (pa & pb & Fa & Fb & Hp & Ha & Hb & _ & _ & ->).
    apply IHa in Ha. apply IHb in Hb.
    assert (p ∈ dom h) by (apply elem_of_dom; by eexists).
    set_solver.
Qed.

Lemma repr_weaken (h h' : gmap positive Heap.cell) p t F :
  h ⊆ h' -> Heap.repr h p t F -> Heap.repr h' p t F.
Proof.
  intros Hsub Hr. apply (repr_frame h); [|done].
  intros x Hx. apply (repr_dom _ _ _ _ Hr), elem_of_dom in Hx as [c Hc].
  rewrite Hc. by apply (lookup_weaken h).
Qed.

(** Every cell of a tree is the root of a subtree made of cells of the tree. *)
Lemma repr_inside (h : gmap positive Heap.cell) p t F q :
  Heap.repr h p t F -> q ∈ F ->
  exists s Fs, Heap.repr h q s Fs /\ Fs ⊆ F.
Proof.
  revert p F. induction t as [v id | a IHa b IHb id]; intros p F Hr Hq.
  - exists (ENumericConstant v id), F. split; [|done].
    destruct Hr as [Hp ->]. apply elem_of_singleton in Hq as ->. by split.
  - pose proof Hr as (pa & pb & Fa & Fb & Hp & Ha & Hb & Hd & Hn & ->).
    apply elem_of_union in Hq as [[Hq | Hq]%elem_of_union | Hq].
    + apply elem_of_singleton in Hq as ->.
      by exists (EBinaryAddition a b id), ({[p]} ∪ Fa ∪ Fb).
    + destruct (IHa _ _ Ha Hq) as (s & Fs & Hs & Hsub).
      exists s, Fs. split; [done | set_solver].
    + destruct (IHb _ _ Hb Hq) as (s & Fs & Hs & Hsub).
      exists s, Fs. split; [done | set_solver].
Qed.

(** Following the pointers evaluates the tree. *)
Lemma Evaluate_repr (h : gmap positive Heap.cell) p t F fuel :
  Heap.repr h p t F -> (height t < fuel)%nat ->
  Heap.Evaluate fuel h p = Evaluate t.
Proof.
  revert p F fuel. induction t as [v id | a IHa b IHb id]; intros p F fuel Hr Hf;
    (destruct fuel as [|fuel]; [lia|]); cbn in Hr |- *.
  - destruct Hr as [-> _]. reflexivity.
  - destruct Hr as (pa & pb & Fa & Fb & -> & Ha & Hb & _).
    cbn in Hf.
    rewrite (IHa _ _ fuel Ha) by lia. rewrite (IHb _ _ fuel Hb) by lia.
    reflexivity.
Qed.

(** [new] takes an unused address and leaves every other cell alone. *)
Lemma new_spec (h : gmap positive Heap.cell) c h' p :
  Heap.new h c = (h', p) ->
  (p ∉ dom h) /\ h' !! p = Some c /\ h ⊆ h' /\ dom h' = {[p]} ∪ dom h.
Proof.
  unfold Heap.new. intros [= <- <-].
  pose proof (is_fresh (dom h)) as Hfresh.
  repeat split.
  - done.
  - apply lookup_insert_eq.
  - apply insert_subseteq. by apply not_elem_of_dom.
  - apply dom_insert_L.
Qed.

(** [Clone] builds the same tree out of cells that were not in use, and
    leaves the store it started from in place. *)
Lemma Clone_repr t : forall (h : gmap positive Heap.cell) p F fuel,
  Heap.repr h p t F -> (height t < fuel)%nat ->
  exists h' p' F',
    Heap.Clone fuel h p = Some (h', p')
    /\ h ⊆ h'
    /\ Heap.repr h' p' t F'
    /\ F' ## dom h.
Proof.
  induction t as [v id | a IHa b IHb id]; intros h p F fuel Hr Hf;
    (destruct fuel as [|fuel]; [lia|]); cbn in Hr; cbn [Heap.Clone].
  - destruct Hr as [-> _].
    destruct (Heap.new h (Heap.CNumericConstant v id)) as [h' p'] eqn:Hnew.
    destruct (new_spec _ _ _ _ Hnew) as (Hfresh & Hp' & Hsub & Hdom).
    exists h', p', {[p']}. repeat split; try done. set_solver.
  - destruct Hr as (pa & pb & Fa & Fb & -> & Ha & Hb & Hd & Hn & ->).
    cbn in Hf.
    destruct (IHa h pa Fa fuel Ha ltac:(lia)) as (h1 & pa' & Fa' & -> & Hsub1 & Ha' & Hfa).
    cbn.
    destruct (IHb h1 pb Fb fuel (repr_weaken _ _ _ _ _ Hsub1 Hb) ltac:(lia))
      as (h2 & pb' & Fb' & -> & Hsub2 & Hb' & Hfb).
    cbn.
    destruct (Heap.new h2 (Heap.CBinaryAddition pa' pb' id)) as [h' p'] eqn:Hnew.
    destruct (new_spec _ _ _ _ Hnew) as (Hfresh & Hp' & Hsub3 & Hdom).
    pose proof (repr_dom _ _ _ _ Ha') as Hda'.
    pose proof (repr_dom _ _ _ _ Hb') as Hdb'.
    pose proof (subseteq_dom _ _ Hsub1) as Hd1.
    pose proof (subseteq_dom _ _ Hsub2) as Hd2.
    exists h', p', ({[p']} ∪ Fa' ∪ Fb'). repeat split.
    + by etrans; [|etrans].
    + cbn. exists pa', pb', Fa', Fb'. repeat split; try done.
      * apply (repr_weaken h1); [by etrans | done].
      * by apply (repr_weaken h2).
      * set_solver.
      * set_solver.
    + set_solver.
Qed.

(** [delete] of a tree touches the cells of that tree only. *)
Lemma destroy_frame t : forall fuel (h h' : gmap positive Heap.cell) p F,
  Heap.repr h p t F -> Heap.destroy fuel h p = Some h' ->
  forall x, x ∉ F -> h' !! x = h !! x.
Proof.
  induction t as [v id | a IHa b IHb id]; intros fuel h h' p F Hr Hd x Hx;
    (destruct fuel as [|fuel]; [discriminate|]); cbn in Hr, Hd.
  - destruct Hr as [Hp ->]. rewrite Hp in Hd. injection Hd as <-.
    apply lookup_delete_ne. set_solver.
  - destruct Hr as (pa & pb & Fa & Fb & Hp & Ha & Hb & Hdis & Hn & ->).
    rewrite Hp in Hd.
    destruct (Heap.destroy fuel h pb) as [h1|] eqn:E1; [|discriminate].
    cbn in Hd.
    destruct (Heap.destroy fuel h1 pa) as [h2|] eqn:E2; [|discriminate].
    cbn in Hd. injection Hd as <-.
    pose proof (IHb _ _ _ _ _ Hb E1) as Hfb.
    assert (Ha1 : Heap.repr h1 pa a Fa).
    { apply (repr_frame h); [|done]. intros y Hy. apply Hfb. set_solver. }
    pose proof (IHa _ _ _ _ _ Ha1 E2) as Hfa.
    rewrite lookup_delete_ne by set_solver.
    rewrite Hfa by set_solver. apply Hfb. set_solver.
Qed.

(** [delete] of a tree returns when given the depth of the tree. *)
Lemma destroy_total t : forall fuel (h : gmap positive Heap.cell) p F,
  Heap.repr h p t F -> (height t < fuel)%nat ->
  exists h', Heap.destroy fuel h p = Some h'.
Proof.
  induction t as [v id | a IHa b IHb id]; intros fuel h p F Hr Hf;
    (destruct fuel as [|fuel]; [lia|]); cbn in Hr |- *.
  - destruct Hr as [-> _]. by eexists.
  - destruct Hr as (pa & pb & Fa & Fb & -> & Ha & Hb & Hdis & Hn & ->).
    cbn in Hf.
    destruct (IHb fuel h pb Fb Hb ltac:(lia)) as [h1 E1]. rewrite E1. cbn.
    assert (Ha1 : Heap.repr h1 pa a Fa).
    { apply (repr_frame h); [|done]. intros y Hy.
      apply (destroy_frame _ _ _ _ _ _ Hb E1). set_solver. }
    destruct (IHa fuel h1 pa Fa Ha1 ltac:(lia)) as [h2 E2]. rewrite E2. cbn.
    by eexists.
Qed.

(** [ReplaceLeft] on a node of a tree touches the cells of that tree only. *)
Lemma ReplaceLeft_frame (h h' : gmap positive Heap.cell) q s Fs fuel left :
  Heap.repr h q s Fs -> Heap.ReplaceLeft fuel h q left = Some h' ->
  forall x, x ∉ Fs -> h' !! x = h !! x.
Proof.
  intros Hr HR x Hx. unfold Heap.ReplaceLeft in HR.
  destruct s as [v id | a b id]; cbn in Hr.
  - destruct Hr as [Hq _]. rewrite Hq in HR. discriminate.
  - destruct Hr as (pa & pb & Fa & Fb & Hq & Ha & Hb & Hdis & Hn & ->).
    rewrite Hq in HR.
    assert (Ha1 : Heap.repr (<[q := Heap.CBinaryAddition left pb id]> h) pa a Fa).
    { apply (repr_frame h); [|done]. intros y Hy.
      apply lookup_insert_ne. set_solver. }
    rewrite (destroy_frame _ _ _ _ _ _ Ha1 HR) by set_solver.
    apply lookup_insert_ne. set_solver.
Qed.

(** [ReplaceRight] on a node of a tree touches the cells of that tree only. *)
Lemma ReplaceRight_frame (h h' : gmap positive Heap.cell) q s Fs fuel right :
  Heap.repr h q s Fs -> Heap.ReplaceRight fuel h q right = Some h' ->
  forall x, x ∉ Fs -> h' !! x = h !! x.
Proof.
  intros Hr HR x Hx. unfold Heap.ReplaceRight in HR.
  destruct s as [v id | a b id]; cbn in Hr.
  - destruct Hr as [Hq _]. rewrite Hq in HR. discriminate.
  - destruct Hr as (pa & pb & Fa & Fb & Hq & Ha & Hb & Hdis & Hn & ->).
    rewrite Hq in HR.
    assert (Hb1 : Heap.repr (<[q := Heap.CBinaryAddition pa right id]> h) pb b Fb).
    { apply (repr_frame h); [|done]. intros y Hy.
      apply lookup_insert_ne. set_solver. }
    rewrite (destroy_frame _ _ _ _ _ _ Hb1 HR) by set_solver.
    apply lookup_insert_ne. set_solver.
Qed.

(** [ReplaceLeft] on the root of an addition returns when given the depth of
    the child it releases. *)
Lemma ReplaceLeft_total (h : gmap positive Heap.cell) p a b id F left :
  Heap.repr h p (EBinaryAddition a b id) F ->
  exists h', Heap.ReplaceLeft (S (height a)) h p left = Some h'.
Proof.
  cbn. intros (pa & pb & Fa & Fb & Hp & Ha & Hb & Hdis & Hn & ->).
  unfold Heap.ReplaceLeft. rewrite Hp.
  apply (destroy_total a _ _ _ Fa); [|lia].
  apply (repr_frame h); [|done]. intros y Hy.
  apply lookup_insert_ne. set_solver.
Qed.

(* ------------------------------------------------------------------------- *)
(** ** Clone independence *)
(* ------------------------------------------------------------------------- *)

(** Claim C7.  [Clone] of a tree [t] returns a tree made of cells that were
    not in use before (it shares no cell with [t]); it has the structure of
    [t], binding names included, and evaluates to the same result; the
    original is still in place after the call; and after [ReplaceLeft] or
    [ReplaceRight] on any node of the clone, with any new child, the original
    still has the structure of [t] and evaluates to the same result.
    [ReplaceLeft] on the root of the clone of an addition does return. *)
Theorem Clone_independent (h : gmap positive Heap.cell) (p : positive)
    (t : Expr) (F : gset positive) :
  Heap.repr h p t F ->
  exists h' p' F',
    Heap.Clone (S (height t)) h p = Some (h', p')
    /\ Heap.repr h' p t F
    /\ Heap.repr h' p' (Clone t) F'
    /\ F' ## dom h
    /\ (forall fuel, (height t < fuel)%nat ->
        Heap.Evaluate fuel h p = Evaluate t
        /\ Heap.Evaluate fuel h' p = Evaluate t
        /\ Heap.Evaluate fuel h' p' = Evaluate t)
    /\ (forall q child fuel h'',
        q ∈ F' ->
        Heap.ReplaceLeft fuel h' q child = Some h''
        \/ Heap.ReplaceRight fuel h' q child = Some h'' ->
        Heap.repr h'' p t F
        /\ forall fuel', (height t < fuel')%nat ->
             Heap.Evaluate fuel' h'' p = Evaluate t)
    /\ (forall a b id child,
        t = EBinaryAddition a b id ->
        exists h'', Heap.ReplaceLeft (S (height a)) h' p' child = Some h'').
Proof.
  intros Hr.
  destruct (Clone_repr t h p F (S (height t)) Hr ltac:(lia))
    as (h' & p' & F' & HC & Hsub & Hr' & Hfresh).
  pose proof (repr_weaken _ _ _ _ _ Hsub Hr) as Hr0.
  exists h', p', F'. rewrite Clone_id.
  split; [done|]. split; [done|]. split; [done|]. split; [done|].
  split; [|split].
  - intros fuel Hf. repeat split; eapply Evaluate_repr; eauto.
  - intros q child fuel h'' Hq HR.
    destruct (repr_inside _ _ _ _ _ Hr' Hq) as (s & Fs & Hs & HFs).
    pose proof (repr_dom _ _ _ _ Hr) as HF.
    assert (Hr2 : Heap.repr h'' p t F).
    { apply (repr_frame h'); [|done]. intros x Hx.
      destruct HR as [HR | HR].
      + apply (ReplaceLeft_frame _ _ _ _ _ _ _ Hs HR). set_solver.
      + apply (ReplaceRight_frame _ _ _ _ _ _ _ Hs HR). set_solver. }
    split; [done|]. intros fuel' Hf. eapply Evaluate_repr; eauto.
  - intros a b id child ->. by apply (ReplaceLeft_total _ _ _ b id F').
Qed.

Lemma repr_0_plus_1 :
  Heap.repr store_0_plus_1 3 tree_0_plus_1 ({[3%positive]} ∪ {[1%positive]} ∪ {[2%positive]}).
Proof.
  exists 1%positive, 2%positive, {[1%positive]}, {[2%positive]}.
  repeat split; try reflexivity; set_solver.
Qed.

Lemma Clone_independent_witness :
  exists h' p' F',
    Heap.Clone (S (height tree_0_plus_1)) store_0_plus_1 3 = Some (h', p')
    /\ Heap.repr h' 3 tree_0_plus_1 ({[3%positive]} ∪ {[1%positive]} ∪ {[2%positive]})
    /\ Heap.repr h' p' (Clone tree_0_plus_1) F'
    /\ F' ## dom store_0_plus_1
    /\ (forall fuel, (height tree_0_plus_1 < fuel)%nat ->
        Heap.Evaluate fuel store_0_plus_1 3 = Evaluate tree_0_plus_1
        /\ Heap.Evaluate fuel h' 3 = Evaluate tree_0_plus_1
        /\ Heap.Evaluate fuel h' p' = Evaluate tree_0_plus_1)
    /\ (forall q child fuel h'',
        q ∈ F' ->
        Heap.ReplaceLeft fuel h' q child = Some h''
        \/ Heap.ReplaceRight fuel h' q child = Some h'' ->
        Heap.repr h'' 3 tree_0_plus_1 ({[3%positive]} ∪ {[1%positive]} ∪ {[2%positive]})
        /\ forall fuel', (height tree_0_plus_1 < fuel')%nat ->
             Heap.Evaluate fuel' h'' 3 = Evaluate tree_0_plus_1)
    /\ (forall a b id child,
        tree_0_plus_1 = EBinaryAddition a b id ->
        exists h'', Heap.ReplaceLeft (S (height a)) h' p' child = Some h'').
Proof.
  apply (Clone_independent store_0_plus_1 3 tree_0_plus_1
           ({[3%positive]} ∪ {[1%positive]} ∪ {[2%positive]})).
  exists 1%positive, 2%positive, {[1%positive]}, {[2%positive]}.
  repeat split; try reflexivity; set_solver.
Defined.

(** A run: clone [0 + 1], allocate the leaf [9], make it the left child of
    the clone.  The original still evaluates to [1], the clone to [10]. *)
Example Clone_then_ReplaceLeft :
  ('(h1, c) ← Heap.Clone 2 store_0_plus_1 3;
   let '(h2, n) := Heap.new h1 (Heap.CNumericConstant (Value 9) "") in
   h3 ← Heap.ReplaceLeft 1 h2 c n;
   Some (Heap.Evaluate 2 h1 c, Heap.Evaluate 2 h3 3, Heap.Evaluate 2 h3 c))
  = Some (Some 1, Some 1, Some 10).
Proof. vm_compute. reflexivity. Qed.

(* ------------------------------------------------------------------------- *)
(** ** Scenarios *)
(* ------------------------------------------------------------------------- *)

(** Neither rule applies to [2 + 3]. *)
Example Optimize_2_plus_3 :
  Optimize (BinaryAddition.Make (NumericConstant.Make (Value 2))
                                (NumericConstant.Make (Value 3)))
  ≫= Evaluate = Some 5.
Proof. reflexivity. Qed.

(** Both rules apply to [0 + 0]; the first one fires. *)
Example Optimize_0_plus_0 :
  Optimize (BinaryAddition.Make (NumericConstant.Make (Value 0))
                                (NumericConstant.Make (Value 0)))
  = Some (ENumericConstant (Value 0) "").
Proof. reflexivity. Qed.

(** Each rule runs once: in [0 + (0 + 1)] the inner addition is rewritten by
    the left-zero pass, and the [0 + 1] this leaves at the root is not
    visited by that pass again. *)
Example Optimize_single_pass :
  Optimize (BinaryAddition.Make
              (NumericConstant.Make (Value 0))
              (BinaryAddition.Make (NumericConstant.Make (Value 0))
                                   (NumericConstant.Make (Value 1))))
  = Some (BinaryAddition.Make (NumericConstant.Make (Value 0))
                              (NumericConstant.Make (Value 1))).
Proof. reflexivity. Qed.

(** Addition is not matched commutatively. *)
Example Match_not_commutative :
  Match (InputPattern TransformBinaryAdditionWithZeroOnLeft)
        (BinaryAddition.Make (NumericConstant.Make (Value 0))
                             (NumericConstant.Make (Value 1))) = true
  /\ Match (InputPattern TransformBinaryAdditionWithZeroOnLeft)
           (BinaryAddition.Make (NumericConstant.Make (Value 1))
                                (NumericConstant.Make (Value 0))) = false.
Proof. split; reflexivity. Qed.

Example Match_wildcards (k j : Z) :
  Match (NumericConstant.Make AnyNumber) (NumericConstant.Make AnyNumber) = true
  /\ Match (NumericConstant.Make AnyNumber) (NumericConstant.Make (Value k)) = true
  /\ Match (NumericConstant.Make (Value k)) (NumericConstant.Make (Value k)) = true
  /\ (k <> j ->
      Match (NumericConstant.Make (Value k)) (NumericConstant.Make (Value j)) = false).
Proof.
  repeat split; try reflexivity.
  - apply Z.eqb_refl.
  - intros H. by apply Z.eqb_neq.
Qed.

(* ------------------------------------------------------------------------- *)
(** ** More on the matcher *)
(* ------------------------------------------------------------------------- *)

(** Property X1.  Every tree matches itself, wildcards included; yet [Match] is no
    equivalence: a wildcard matches two leaves that do not match each
    other. *)
Theorem Match_refl_not_trans :
  (forall t, Match t t = true)
  /\ ~ (forall a b c, Match a b = true -> Match b c = true -> Match a c = true).
Proof.
  split.
  - induction t as [[v|] id | l IHl r IHr id].
    + rewrite Match_numeric. apply Z.eqb_refl.
    + reflexivity.
    + by rewrite Match_addition, IHl, IHr.
  - intros Htrans.
    specialize (Htrans (ENumericConstant (Value 1) "")
                       (ENumericConstant AnyNumber "")
                       (ENumericConstant (Value 2) "")
                       eq_refl eq_refl).
    discriminate.
Qed.

(** Property X2.  Between two wildcard-free trees [Match] is equality up to binding
    names. *)
Theorem Match_concrete_iff (p q : Expr) :
  has_wildcard p = false -> has_wildcard q = false ->
  Match p q = true <-> strip_ids p = strip_ids q.
Proof.
  revert q. induction p as [[a|] id0 | pl IHl pr IHr pid];
    intros [[b|] id1 | ql qr qid]; cbn [has_wildcard holds_AnyNumber];
    intros Hp Hq; try discriminate.
  - rewrite Match_numeric. cbn. rewrite Z.eqb_eq. split; [by intros -> | congruence].
  - split; discriminate.
  - split; discriminate.
  - apply orb_false_iff in Hp as [Hpl Hpr]. apply orb_false_iff in Hq as [Hql Hqr].
    rewrite Match_addition, andb_true_iff, (IHl _ Hpl Hql), (IHr _ Hpr Hqr).
    cbn. split; [by intros [-> ->] | intros [= -> ->]; done].
Qed.

Lemma Match_concrete_iff_witness :
  Match (EBinaryAddition (ENumericConstant (Value 1) "a")
                         (ENumericConstant (Value 2) "b") "c")
        (EBinaryAddition (ENumericConstant (Value 1) "")
                         (ENumericConstant (Value 2) "x") "") = true
  <-> strip_ids (EBinaryAddition (ENumericConstant (Value 1) "a")
                                 (ENumericConstant (Value 2) "b") "c")
      = strip_ids (EBinaryAddition (ENumericConstant (Value 1) "")
                                   (ENumericConstant (Value 2) "x") "").
Proof.
  apply Match_concrete_iff; reflexivity.
Defined.

(* ------------------------------------------------------------------------- *)
(** ** More on evaluation *)
(* ------------------------------------------------------------------------- *)

Lemma has_wildcard_leaf_values t :
  has_wildcard t = true <-> AnyNumber ∈ leaf_values t.
Proof.
  unfold leaf_values.
  induction t as [[v|] id | l IHl r IHr id]; cbn [has_wildcard leaves holds_AnyNumber].
  - split; [discriminate|]. intros H%list_elem_of_singleton. discriminate.
  - split; [|done]. intros _. by apply list_elem_of_singleton.
  - rewrite orb_true_iff, fmap_app, elem_of_app. by rewrite IHl, IHr.
Qed.

Lemma sum_values_app l1 l2 :
  sum_values (l1 ++ l2) = sum_values l1 + sum_values l2.
Proof. induction l1 as [|[v|] l1 IH]; cbn; lia. Qed.

Lemma leaf_sum_leaf_values t : leaf_sum t = sum_values (leaf_values t).
Proof.
  unfold leaf_values.
  induction t as [[v|] id | l IHl r IHr id]; cbn [leaf_sum leaves].
  - cbn. lia.
  - reflexivity.
  - by rewrite fmap_app, sum_values_app, IHl, IHr.
Qed.

Lemma sum_values_Permutation (l1 l2 : list Numeric) :
  l1 ≡ₚ l2 -> sum_values l1 = sum_values l2.
Proof.
  induction 1 as [| x ? ? ? IH | x y ? | ? ? ? ? IH1 ? IH2]; cbn.
  - done.
  - by rewrite IH.
  - destruct x, y; lia.
  - by rewrite IH1.
Qed.

Lemma leaf_values_length t : (1 <= length (leaf_values t))%nat.
Proof.
  unfold leaf_values. induction t as [v id | l IHl r IHr id]; cbn [leaves].
  - done.
  - rewrite fmap_app, length_app. lia.
Qed.

(** The result on a wildcard-free tree is congruent to the sum of the
    leaves, whatever the leaves hold. *)
Lemma Evaluate_congruent t :
  has_wildcard t = false ->
  exists n, Evaluate t = Some n
            /\ n mod size_t_modulus = leaf_sum t mod size_t_modulus.
Proof.
  induction t as [[v|] id | l IHl r IHr id]; cbn [has_wildcard holds_AnyNumber];
    intros Hw; try discriminate.
  - by exists v.
  - apply orb_false_iff in Hw as [Hl Hr].
    destruct (IHl Hl) as (a & Ea & Ha). destruct (IHr Hr) as (b & Eb & Hb).
    exists (size_t_add a b). cbn. rewrite Ea, Eb. split; [done|].
    unfold size_t_add. rewrite Z.mod_mod by done.
    rewrite (Zplus_mod a b), Ha, Hb. by rewrite <- Zplus_mod.
Qed.

Lemma Evaluate_addition_sum l r id :
  has_wildcard (EBinaryAddition l r id) = false ->
  Evaluate (EBinaryAddition l r id)
  = Some (leaf_sum (EBinaryAddition l r id) mod size_t_modulus).
Proof.
  intros Hw. cbn in Hw. apply orb_false_iff in Hw as [Hl Hr].
  destruct (Evaluate_congruent l Hl) as (a & Ea & Ha).
  destruct (Evaluate_congruent r Hr) as (b & Eb & Hb).
  cbn. rewrite Ea, Eb. cbn. f_equal. unfold size_t_add.
  rewrite (Zplus_mod a b), Ha, Hb. by rewrite <- Zplus_mod.
Qed.

(** Property X3.  The result of [Evaluate] depends on the leaf values only, not on
    their order, on the shape of the tree or on binding names: two trees
    whose leaf values are a permutation of one another evaluate alike
    (both abort, or both return the same number). *)
Theorem Evaluate_Permutation (t1 t2 : Expr) :
  leaf_values t1 ≡ₚ leaf_values t2 -> Evaluate t1 = Evaluate t2.
Proof.
  intros HP.
  destruct (has_wildcard t1) eqn:W1.
  { pose proof W1 as W2. rewrite has_wildcard_leaf_values, HP,
      <- has_wildcard_leaf_values in W2.
    apply Evaluate_None_iff in W1, W2. congruence. }
  assert (W2 : has_wildcard t2 = false).
  { destruct (has_wildcard t2) eqn:W2; [|done].
    rewrite has_wildcard_leaf_values, <- HP, <- has_wildcard_leaf_values in W2.
    congruence. }
  pose proof (Permutation_length HP) as HL.
  pose proof (sum_values_Permutation _ _ HP) as HS.
  rewrite <- !leaf_sum_leaf_values in HS.
  destruct t1 as [v1 i1 | l1 r1 i1], t2 as [v2 i2 | l2 r2 i2].
  - unfold leaf_values in HP. cbn in HP. apply Permutation_singleton_l in HP.
    by injection HP as ->.
  - exfalso. unfold leaf_values in HL. cbn [leaves] in HL.
    rewrite fmap_app, length_app in HL. cbn in HL.
    pose proof (leaf_values_length l2). pose proof (leaf_values_length r2).
    unfold leaf_values in *. lia.
  - exfalso. unfold leaf_values in HL. cbn [leaves] in HL.
    rewrite fmap_app, length_app in HL. cbn in HL.
    pose proof (leaf_values_length l1). pose proof (leaf_values_length r1).
    unfold leaf_values in *. lia.
  - rewrite !Evaluate_addition_sum by done. by rewrite HS.
Qed.

Lemma Evaluate_Permutation_witness :
  Evaluate (EBinaryAddition
              (EBinaryAddition (ENumericConstant (Value 1) "a")
                               (ENumericConstant (Value 2) "") "")
              (ENumericConstant (Value 3) "") "")
  = Evaluate (EBinaryAddition
                (ENumericConstant (Value 3) "")
                (EBinaryAddition (ENumericConstant (Value 2) "b")
                                 (ENumericConstant (Value 1) "") "") "c").
Proof.
  apply Evaluate_Permutation.
  exact (Permutation_rev [Value 1; Value 2; Value 3]).
Defined.

(** Property X4.  On a tree whose leaves hold [std::size_t] values every result of
    [Evaluate] is a [std::size_t] value. *)
Theorem Evaluate_result_in_size_t (t : Expr) (n : Z) :
  values_in_size_t t -> Evaluate t = Some n -> in_size_t n.
Proof. intros Hv H. exact (Evaluate_in_size_t t n Hv H). Qed.

Lemma Evaluate_result_in_size_t_witness :
  in_size_t 0.
Proof.
  apply (Evaluate_result_in_size_t
           (EBinaryAddition (ENumericConstant (Value (2 ^ 64 - 1)) "")
                            (ENumericConstant (Value 1) "") "") 0).
  - cbn. unfold in_size_t, size_t_modulus, size_t_bits. lia.
  - reflexivity.
Defined.

(* ------------------------------------------------------------------------- *)
(** ** More on flattening *)
(* ------------------------------------------------------------------------- *)

Lemma FlattenExpressionsTo_length root :
  length (FlattenExpressionsTo root []) = node_count root.
Proof.
  induction root as [v id | l IHl r IHr id]; cbn [FlattenExpressionsTo node_count].
  - reflexivity.
  - rewrite (FlattenExpressionsTo_app r), !length_app, IHl, IHr. cbn. lia.
Qed.

Lemma FlattenIdentifiersTo_Id root :
  FlattenIdentifiersTo root [] = Id <$> FlattenExpressionsTo root [].
Proof.
  induction root as [v id | l IHl r IHr id];
    cbn [FlattenIdentifiersTo FlattenExpressionsTo].
  - reflexivity.
  - rewrite (FlattenIdentifiersTo_app r), (FlattenExpressionsTo_app r).
    rewrite !fmap_app, IHl, IHr. reflexivity.
Qed.

Lemma FlattenExpressionsTo_last root :
  last (FlattenExpressionsTo root []) = Some root.
Proof. destruct root; cbn [FlattenExpressionsTo]; apply last_snoc. Qed.

(** Property X5.  [FlattenExpressionsTo] only appends: the entries already in the
    vector stay where they are, one entry per node of the tree is added, and
    the last one is the root. *)
Theorem FlattenExpressionsTo_appends (root : Expr) (expressions : list Expr) :
  exists added,
    FlattenExpressionsTo root expressions = expressions ++ added
    /\ length added = node_count root
    /\ last added = Some root.
Proof.
  exists (FlattenExpressionsTo root []). split; [apply FlattenExpressionsTo_app|].
  split; [apply FlattenExpressionsTo_length | apply FlattenExpressionsTo_last].
Qed.

(** Property X6.  [FlattenIdentifiersTo] appends, in the same order, the binding
    names of the nodes that [FlattenExpressionsTo] lists. *)
Theorem FlattenIdentifiersTo_names (root : Expr) (identifiers : list Identifier) :
  FlattenIdentifiersTo root identifiers
  = identifiers ++ (Id <$> FlattenExpressionsTo root []).
Proof. by rewrite FlattenIdentifiersTo_app, FlattenIdentifiersTo_Id. Qed.

(* ------------------------------------------------------------------------- *)
(** ** Instantiating an output pattern *)
(* ------------------------------------------------------------------------- *)

Lemma find_distance_le v x : (find_distance v x <= length v)%nat.
Proof. induction v as [|y v IH]; cbn; [lia|]. destruct (String.eqb y x); lia. Qed.

Lemma find_distance_absent v x : x ∉ v -> find_distance v x = length v.
Proof.
  induction v as [|y v IH]; cbn; [done|].
  intros [Hne Hv]%not_elem_of_cons.
  destruct (String.eqb_spec y x); [congruence|]. by rewrite IH.
Qed.

Lemma find_distance_first v x i :
  v !! i = Some x -> (forall j, (j < i)%nat -> v !! j <> Some x) ->
  find_distance v x = i.
Proof.
  revert i. induction v as [|y v IH]; intros i Hi Hfirst; [done|].
  cbn. destruct (String.eqb_spec y x) as [-> | Hne].
  - destruct i as [|i]; [done|]. exfalso. by apply (Hfirst 0%nat); [lia|].
  - destruct i as [|i]; [cbn in Hi; congruence|]. f_equal.
    apply IH; [done|]. intros j Hj. apply (Hfirst (S j)). lia.
Qed.

(** Property X7.  A placeholder is filled from the entry of [expressions] that stands
    at the index of the first occurrence of its name in [identifiers]: the
    value of that numeric node is copied (a wildcard too) and the output leaf
    gets the empty name. *)
Theorem ApplyTransformAtIn_placeholder
    (id : Identifier) (expressions : list Expr) (identifiers : list Identifier)
    (i : nat) (v : Numeric) (name : Identifier) :
  identifiers !! i = Some id ->
  (forall j, (j < i)%nat -> identifiers !! j <> Some id) ->
  expressions !! i = Some (ENumericConstant v name) ->
  ApplyTransformAtIn (ENumericConstant AnyNumber id) expressions identifiers
  = Some (ENumericConstant v "").
Proof.
  intros Hi Hfirst He. cbn.
  rewrite (find_distance_first _ _ _ Hi Hfirst).
  rewrite bool_decide_eq_false_2; [by rewrite He|].
  apply lookup_lt_Some in Hi. lia.
Qed.

Lemma ApplyTransformAtIn_placeholder_witness :
  ApplyTransformAtIn
    (ENumericConstant AnyNumber "x")
    [ENumericConstant (Value 7) "p"; ENumericConstant (Value 8) "q";
     ENumericConstant (Value 9) "r"]
    ["y"; "x"; "x"]
  = Some (ENumericConstant (Value 8) "").
Proof.
  apply (ApplyTransformAtIn_placeholder "x" _ _ 1 (Value 8) "q").
  - reflexivity.
  - intros [|j] Hj; [discriminate | lia].
  - reflexivity.
Defined.

(** Property X8.  A placeholder whose name the input pattern does not carry makes the
    whole instantiation fail, wherever in the output pattern it stands. *)
Theorem ApplyTransformAtIn_unbound_name
    (pattern : Expr) (expressions : list Expr) (identifiers : list Identifier)
    (id : Identifier) :
  id ∈ wildcard_names pattern -> id ∉ identifiers ->
  ApplyTransformAtIn pattern expressions identifiers = None.
Proof.
  intros Hin Hout.
  induction pattern as [[v|] id' | l IHl r IHr id']; cbn [wildcard_names] in Hin.
  - by apply elem_of_nil in Hin.
  - apply list_elem_of_singleton in Hin as ->. cbn.
    rewrite (find_distance_absent _ _ Hout). by rewrite bool_decide_eq_true_2.
  - cbn [ApplyTransformAtIn]. apply elem_of_app in Hin as [Hin | Hin].
    + by rewrite (IHl Hin).
    + rewrite (IHr Hin).
      by destruct (ApplyTransformAtIn l expressions identifiers).
Qed.

Lemma ApplyTransformAtIn_unbound_name_witness :
  ApplyTransformAtIn
    (EBinaryAddition (ENumericConstant (Value 1) "")
                     (ENumericConstant AnyNumber "middle") "")
    (FlattenExpressionsTo
       (EBinaryAddition (ENumericConstant (Value 0) "")
                        (ENumericConstant (Value 5) "") "") [])
    (FlattenIdentifiersTo
       (InputPattern TransformBinaryAdditionWithZeroOnLeft) [])
  = None.
Proof.
  apply (ApplyTransformAtIn_unbound_name _ _ _ "middle").
  - cbn. set_solver.
  - cbn. set_solver.
Defined.

Lemma ApplyTransformAtIn_stripped pattern expressions identifiers t' :
  ApplyTransformAtIn pattern expressions identifiers = Some t' ->
  strip_ids t' = t' /\ post_order t' = post_order pattern.
Proof.
  revert t'. induction pattern as [v id | l IHl r IHr id]; intros t' H.
  - cbn in H. destruct (holds_AnyNumber v).
    + destruct (bool_decide _); [discriminate|].
      destruct (expressions !! _) as [[w n | ? ? ?]|]; try discriminate.
      by injection H as <-.
    + by injection H as <-.
  - cbn [ApplyTransformAtIn] in H.
    destruct (ApplyTransformAtIn l expressions identifiers) as [l'|]; [|discriminate].
    destruct (ApplyTransformAtIn r expressions identifiers) as [r'|]; [|discriminate].
    cbn in H. injection H as <-.
    destruct (IHl l' eq_refl) as [Sl Pl]. destruct (IHr r' eq_refl) as [Sr Pr].
    unfold BinaryAddition.Make. cbn. by rewrite Sl, Sr, Pl, Pr.
Qed.

(** Property X9.  A tree built by [ApplyTransformAtIn] has the shape of the output
    pattern, and none of its nodes carries a binding name. *)
Theorem ApplyTransformAtIn_shape
    (pattern : Expr) (expressions : list Expr) (identifiers : list Identifier)
    (t' : Expr) :
  ApplyTransformAtIn pattern expressions identifiers = Some t' ->
  post_order t' = post_order pattern
  /\ Forall (fun n => Id n = NULL_ID) (FlattenExpressionsTo t' []).
Proof.
  intros H. destruct (ApplyTransformAtIn_stripped _ _ _ _ H) as [Hs Hp].
  split; [done|]. clear H Hp. revert Hs.
  induction t' as [v id | l IHl r IHr id]; cbn [strip_ids FlattenExpressionsTo].
  - intros [= Hid]. by repeat constructor.
  - intros [= Hl Hr Hid]. rewrite (FlattenExpressionsTo_app r).
    apply Forall_app. split; [apply Forall_app; split; auto|].
    by repeat constructor.
Qed.

Lemma ApplyTransformAtIn_shape_witness :
  post_order (EBinaryAddition (ENumericConstant (Value 8) "")
                              (ENumericConstant (Value 3) "") "")
  = post_order (EBinaryAddition (ENumericConstant AnyNumber "x")
                                (ENumericConstant (Value 3) "three") "sum")
  /\ Forall (fun n => Id n = NULL_ID)
       (FlattenExpressionsTo
          (EBinaryAddition (ENumericConstant (Value 8) "")
                           (ENumericConstant (Value 3) "") "") []).
Proof.
  apply (ApplyTransformAtIn_shape
           (EBinaryAddition (ENumericConstant AnyNumber "x")
                            (ENumericConstant (Value 3) "three") "sum")
           [ENumericConstant (Value 7) "p"; ENumericConstant (Value 8) "q"]
           ["y"; "x"]).
  reflexivity.
Defined.

(** Property X10.  An output pattern without placeholders is copied as it is, names
    erased, whatever the matched subtree was. *)
Theorem ApplyTransformAtIn_literal
    (pattern : Expr) (expressions : list Expr) (identifiers : list Identifier) :
  has_wildcard pattern = false ->
  ApplyTransformAtIn pattern expressions identifiers = Some (strip_ids pattern).
Proof.
  induction pattern as [[v|] id | l IHl r IHr id]; cbn [has_wildcard holds_AnyNumber];
    intros Hw; try discriminate.
  - reflexivity.
  - apply orb_false_iff in Hw as [Hl Hr].
    cbn [ApplyTransformAtIn]. by rewrite (IHl Hl), (IHr Hr).
Qed.

Lemma ApplyTransformAtIn_literal_witness :
  ApplyTransformAtIn
    (EBinaryAddition (ENumericConstant (Value 1) "one")
                     (ENumericConstant (Value 2) "two") "sum") [] []
  = Some (strip_ids
            (EBinaryAddition (ENumericConstant (Value 1) "one")
                             (ENumericConstant (Value 2) "two") "sum")).
Proof.
  apply ApplyTransformAtIn_literal. reflexivity.
Defined.

(** Nodes that stand at the same index of a matching pattern and query have
    the same type. *)
Lemma Match_Type_Forall2 p q :
  Match p q = true ->
  Forall2 (fun a b => Type_ a = Type_ b)
          (FlattenExpressionsTo p []) (FlattenExpressionsTo q []).
Proof.
  revert q. induction p as [v0 id0 | pl IHl pr IHr pid];
    intros [v1 id1 | ql qr qid]; try discriminate.
  - intros _. by repeat constructor.
  - rewrite Match_addition. intros [Hl Hr]%andb_true_iff.
    cbn [FlattenExpressionsTo].
    rewrite (FlattenExpressionsTo_app pr), (FlattenExpressionsTo_app qr).
    repeat apply Forall2_app; auto.
Qed.

Lemma ApplyTransformAtIn_bound input query pattern :
  Match input query = true ->
  (forall id, id ∈ wildcard_names pattern -> binds_leaf input id) ->
  exists t',
    ApplyTransformAtIn pattern (FlattenExpressionsTo query [])
                       (FlattenIdentifiersTo input []) = Some t'.
Proof.
  intros HM. induction pattern as [[v|] id | l IHl r IHr id];
    cbn [wildcard_names]; intros Hb.
  - by eexists.
  - destruct (Hb id ltac:(by apply list_elem_of_singleton)) as (v & i & Hi).
    cbn. pose proof (lookup_lt_Some _ _ _ Hi) as Hlt.
    assert (Hlen : length (FlattenIdentifiersTo input [])
                   = length (FlattenExpressionsTo input []))
      by (by rewrite FlattenIdentifiersTo_Id, length_fmap).
    rewrite bool_decide_eq_false_2 by lia.
    destruct (Forall2_lookup_l _ _ _ _ _ (Match_Type_Forall2 _ _ HM) Hi)
      as (b & -> & HT).
    destruct b; [by eexists | discriminate].
  - cbn [ApplyTransformAtIn].
    destruct IHl as [l' ->]; [intros ? ?; apply Hb, elem_of_app; auto|].
    destruct IHr as [r' ->]; [intros ? ?; apply Hb, elem_of_app; auto|].
    by eexists.
Qed.

(** Property X11.  A transform whose output placeholders are all bound, in its input
    pattern, to numeric leaves never aborts where its input pattern matches:
    neither the [assert] nor the bounds check of [at] fails, and the node
    fetched is a numeric node. *)
Theorem ApplyTransformAt_bound (transform : Transform) (position : Expr) :
  (forall id, id ∈ wildcard_names (OutputPattern transform) ->
              binds_leaf (InputPattern transform) id) ->
  Match (InputPattern transform) position = true ->
  exists t', ApplyTransformAt transform position = Some t'.
Proof.
  intros Hb HM. unfold ApplyTransformAt. by apply ApplyTransformAtIn_bound.
Qed.

Lemma ApplyTransformAt_bound_witness :
  exists t',
    ApplyTransformAt
      (MakeTransform "swap"
         (EBinaryAddition (ENumericConstant AnyNumber "a")
                          (ENumericConstant AnyNumber "b") "")
         (EBinaryAddition (ENumericConstant AnyNumber "b")
                          (ENumericConstant AnyNumber "a") ""))
      (EBinaryAddition (ENumericConstant (Value 4) "")
                       (ENumericConstant (Value 6) "") "")
    = Some t'.
Proof.
  apply ApplyTransformAt_bound.
  - intros id Hid. cbn in Hid.
    apply elem_of_cons in Hid as [-> | Hid%list_elem_of_singleton].
    + by exists AnyNumber, "b"%string.
    + subst id. by exists AnyNumber, "a"%string.
  - reflexivity.
Defined.

(* ------------------------------------------------------------------------- *)
(** ** One pass of an arbitrary transform *)
(* ------------------------------------------------------------------------- *)

(** Property X12.  Where the input pattern of a transform matches no node of the
    tree, the pass returns (it cannot fail) a copy of the tree in which only
    the binding names of the addition nodes are lost. *)
Theorem ApplyTransform_no_match (transform : Transform) (t : Expr) :
  no_match_in transform t ->
  ApplyTransform transform t = Some (clear_addition_ids t).
Proof.
  induction t as [v id | l IHl r IHr id]; [done|].
  intros (HM & Hl & Hr). cbn [ApplyTransform]. rewrite HM.
  by rewrite (IHl Hl), (IHr Hr).
Qed.

Lemma ApplyTransform_no_match_witness :
  ApplyTransform TransformBinaryAdditionWithZeroOnRight
    (EBinaryAddition (ENumericConstant (Value 0) "a")
                     (ENumericConstant (Value 3) "b") "c")
  = Some (clear_addition_ids
            (EBinaryAddition (ENumericConstant (Value 0) "a")
                             (ENumericConstant (Value 3) "b") "c")).
Proof.
  apply ApplyTransform_no_match. cbn. by repeat split.
Defined.

Lemma strip_ids_fixed t :
  strip_ids t = t ->
  addition_ids_empty t /\ forall v id, (v, id) ∈ leaves t -> id = NULL_ID.
Proof.
  induction t as [v id | l IHl r IHr id]; cbn [strip_ids addition_ids_empty leaves].
  - intros [= Hid]. split; [done|].
    by intros v' id' [= _ ->]%list_elem_of_singleton.
  - intros [= Hl Hr Hid]. destruct (IHl Hl) as [Al Ll]. destruct (IHr Hr) as [Ar Lr].
    split; [done|]. intros v' id' [H|H]%elem_of_app; eauto.
Qed.

(** Property X13.  Whatever the transform, in the result of a pass every addition
    node has the empty binding name, and a leaf that carries a name is a
    leaf of the input with that value and name. *)
Theorem ApplyTransform_names (transform : Transform) (t t' : Expr) :
  ApplyTransform transform t = Some t' ->
  addition_ids_empty t'
  /\ forall v id, (v, id) ∈ leaves t' -> id <> NULL_ID -> (v, id) ∈ leaves t.
Proof.
  revert t'. induction t as [v id | l IHl r IHr id]; intros t' H.
  - cbn in H. by injection H as <-.
  - cbn [ApplyTransform] in H.
    destruct (Match (InputPattern transform) (EBinaryAddition l r id)).
    + apply ApplyTransformAtIn_stripped in H as [Hs _].
      destruct (strip_ids_fixed _ Hs) as [Ha Hl]. split; [done|].
      intros v' id' Hin Hne. by destruct (Hne (Hl _ _ Hin)).
    + destruct (ApplyTransform transform l) as [l'|]; [|discriminate].
      destruct (ApplyTransform transform r) as [r'|]; [|discriminate].
      cbn in H. injection H as <-.
      destruct (IHl l' eq_refl) as [Al Ll]. destruct (IHr r' eq_refl) as [Ar Lr].
      split; [done|]. cbn [leaves].
      intros v' id' [Hin|Hin]%elem_of_app Hne; apply elem_of_app; eauto.
Qed.

Lemma ApplyTransform_names_witness :
  addition_ids_empty
    (EBinaryAddition (ENumericConstant (Value 4) "")
                     (ENumericConstant (Value 5) "y") "")
  /\ forall v id,
       (v, id) ∈ leaves (EBinaryAddition (ENumericConstant (Value 4) "")
                                         (ENumericConstant (Value 5) "y") "") ->
       id <> NULL_ID ->
       (v, id) ∈ leaves
         (EBinaryAddition
            (EBinaryAddition (ENumericConstant (Value 0) "p")
                             (ENumericConstant (Value 4) "x") "inner")
            (ENumericConstant (Value 5) "y") "outer").
Proof.
  apply (ApplyTransform_names TransformBinaryAdditionWithZeroOnLeft).
  reflexivity.
Defined.

(* ------------------------------------------------------------------------- *)
(** ** More on [Optimize] *)
(* ------------------------------------------------------------------------- *)

Lemma ApplyTransform_shrinks_with transform t :
  (forall l r id,
      Match (InputPattern transform) (EBinaryAddition l r id) = true ->
      exists v n, ApplyTransformAt transform (EBinaryAddition l r id)
                  = Some (ENumericConstant v n)) ->
  exists t', ApplyTransform transform t = Some t'
             /\ (node_count t' <= node_count t)%nat
             /\ (height t' <= height t)%nat.
Proof.
  intros Hhit.
  apply (ApplyTransform_rel transform
           (fun t t' => (node_count t' <= node_count t)%nat
                        /\ (height t' <= height t)%nat)).
  - intros. split; lia.
  - intros l r id HM. destruct (Hhit l r id HM) as (v & n & ->).
    eexists; split; [done|]. cbn. split; lia.
  - intros l r id l' r' _ [Nl Hl] [Nr Hr]. cbn. split; lia.
Qed.

(** Property X14.  [Optimize] returns on every tree, wildcards or not, and its result
    has no more nodes and no greater height than its input. *)
Theorem Optimize_shrinks (t : Expr) :
  exists t',
    Optimize t = Some t'
    /\ (node_count t' <= node_count t)%nat
    /\ (height t' <= height t)%nat.
Proof.
  destruct (Optimize_rel
              (fun t t' => (node_count t' <= node_count t)%nat
                           /\ (height t' <= height t)%nat)
              (fun t t' => (node_count t' <= node_count t)%nat
                           /\ (height t' <= height t)%nat) t)
    as (t1 & t2 & _ & E & [N1 H1] & [N2 H2]).
  - intros t0. apply ApplyTransform_shrinks_with.
    intros l r id (v0 & i0 & v1 & i1 & _ & _ & _ & ->)%hit_left. by eexists _, _.
  - intros t0. apply ApplyTransform_shrinks_with.
    intros l r id (v0 & i0 & v1 & i1 & _ & _ & _ & ->)%hit_right. by eexists _, _.
  - exists t2. repeat split; [done | lia | lia].
Qed.

(** What a pass keeps of the leaves of a wildcard-free tree. *)
Lemma nonzero_values_miss l r id l' r' :
  (has_wildcard l = false ->
   has_wildcard l' = false /\ nonzero_values l' = nonzero_values l) ->
  (has_wildcard r = false ->
   has_wildcard r' = false /\ nonzero_values r' = nonzero_values r) ->
  has_wildcard (EBinaryAddition l r id) = false ->
  has_wildcard (EBinaryAddition l' r' "") = false
  /\ nonzero_values (EBinaryAddition l' r' "")
     = nonzero_values (EBinaryAddition l r id).
Proof.
  intros Hl Hr Hw. cbn in Hw. apply orb_false_iff in Hw as [Hwl Hwr].
  destruct (Hl Hwl) as [Wl Nl]. destruct (Hr Hwr) as [Wr Nr].
  cbn. by rewrite Wl, Wr, Nl, Nr.
Qed.

(** Property X15.  On a wildcard-free tree [Optimize] only drops leaves that hold
    [0]: the result is wildcard-free and lists the same non-zero leaf values
    in the same order. *)
Theorem Optimize_nonzero_values (t : Expr) :
  has_wildcard t = false ->
  exists t',
    Optimize t = Some t'
    /\ has_wildcard t' = false
    /\ nonzero_values t' = nonzero_values t.
Proof.
  intros Hw.
  destruct (Optimize_rel
              (fun t t' => has_wildcard t = false ->
                 has_wildcard t' = false /\ nonzero_values t' = nonzero_values t)
              (fun t t' => has_wildcard t = false ->
                 has_wildcard t' = false /\ nonzero_values t' = nonzero_values t) t)
    as (t1 & t2 & _ & E & P1 & P2).
  - intros t0.
    apply (ApplyTransform_rel _
             (fun t t' => has_wildcard t = false ->
                has_wildcard t' = false /\ nonzero_values t' = nonzero_values t)).
    + done.
    + intros l r id (v0 & i0 & v1 & i1 & -> & -> & Hz & ->)%hit_left.
      eexists; split; [done|]. intros Hw0.
      destruct Hz as [-> | ->]; [|discriminate].
      by destruct v1; [|discriminate].
    + intros l r id l' r' _. apply nonzero_values_miss.
  - intros t0.
    apply (ApplyTransform_rel _
             (fun t t' => has_wildcard t = false ->
                has_wildcard t' = false /\ nonzero_values t' = nonzero_values t)).
    + done.
    + intros l r id (v0 & i0 & v1 & i1 & -> & -> & Hz & ->)%hit_right.
      eexists; split; [done|]. intros Hw0.
      destruct v0 as [a|]; [|discriminate].
      destruct Hz as [-> | ->]; [|discriminate].
      cbn. by rewrite app_nil_r.
    + intros l r id l' r' _. apply nonzero_values_miss.
  - destruct (P1 Hw) as [W1 N1]. destruct (P2 W1) as [W2 N2].
    exists t2. repeat split; [done | done | congruence].
Qed.

Lemma Optimize_nonzero_values_witness :
  exists t',
    Optimize (EBinaryAddition
                (EBinaryAddition (ENumericConstant (Value 0) "")
                                 (ENumericConstant (Value 4) "") "")
                (EBinaryAddition (ENumericConstant (Value 0) "")
                                 (ENumericConstant (Value 0) "") "") "")
    = Some t'
    /\ has_wildcard t' = false
    /\ nonzero_values t'
       = nonzero_values
           (EBinaryAddition
              (EBinaryAddition (ENumericConstant (Value 0) "")
                               (ENumericConstant (Value 4) "") "")
              (EBinaryAddition (ENumericConstant (Value 0) "")
                               (ENumericConstant (Value 0) "") "") "").
Proof.
  apply Optimize_nonzero_values. reflexivity.
Defined.

(* ------------------------------------------------------------------------- *)
(** ** More on the store *)
(* ------------------------------------------------------------------------- *)

Lemma repr_size (h : gmap positive Heap.cell) p t F :
  Heap.repr h p t F -> size F = node_count t.
Proof.
  revert p F. induction t as [v id | a IHa b IHb id]; intros p F; cbn.
  - intros [_ ->]. apply size_singleton.
  - intros (pa & pb & Fa & Fb & _ & Ha & Hb & Hd & Hn & ->).
    rewrite <- (assoc_L (∪)), size_union by set_solver.
    rewrite size_union by done.
    rewrite size_singleton, (IHa _ _ Ha), (IHb _ _ Hb). lia.
Qed.

Lemma destroy_dom t : forall fuel (h h' : gmap positive Heap.cell) p F,
  Heap.repr h p t F -> Heap.destroy fuel h p = Some h' ->
  dom h' = dom h ∖ F.
Proof.
  induction t as [v id | a IHa b IHb id]; intros fuel h h' p F Hr Hd;
    (destruct fuel as [|fuel]; [discriminate|]); cbn in Hr, Hd.
  - destruct Hr as [Hp ->]. rewrite Hp in Hd. injection Hd as <-.
    apply dom_delete_L.
  - destruct Hr as (pa & pb & Fa & Fb & Hp & Ha & Hb & Hdis & Hn & ->).
    rewrite Hp in Hd.
    destruct (Heap.destroy fuel h pb) as [h1|] eqn:E1; [|discriminate].
    cbn in Hd.
    destruct (Heap.destroy fuel h1 pa) as [h2|] eqn:E2; [|discriminate].
    cbn in Hd. injection Hd as <-.
    assert (Ha1 : Heap.repr h1 pa a Fa).
    { apply (repr_frame h); [|done]. intros y Hy.
      apply (destroy_frame _ _ _ _ _ _ Hb E1). set_solver. }
    rewrite dom_delete_L, (IHa _ _ _ _ _ Ha1 E2), (IHb _ _ _ _ _ Hb E1).
    set_solver.
Qed.

Lemma destroy_spec (h : gmap positive Heap.cell) p t F fuel :
  Heap.repr h p t F -> (height t < fuel)%nat ->
  exists h',
    Heap.destroy fuel h p = Some h'
    /\ dom h' = dom h ∖ F
    /\ forall x, x ∉ F -> h' !! x = h !! x.
Proof.
  intros Hr Hf. destruct (destroy_total t fuel h p F Hr Hf) as [h' E].
  exists h'. split; [done|]. split.
  - by apply (destroy_dom t fuel _ _ p).
  - by apply (destroy_frame t fuel _ _ p).
Qed.

(** Property X16.  Deleting a tree, given its depth, frees the cells of the
    tree, all of them and no other, and changes no cell that stays. *)
Theorem destroy_exact (h : gmap positive Heap.cell) (p : positive) (t : Expr)
    (F : gset positive) (fuel : nat) :
  Heap.repr h p t F -> (height t < fuel)%nat ->
  exists h',
    Heap.destroy fuel h p = Some h'
    /\ dom h' = dom h ∖ F
    /\ forall x, x ∉ F -> h' !! x = h !! x.
Proof. intros Hr Hf. by apply (destroy_spec h p t). Qed.

Lemma destroy_exact_witness :
  exists h',
    Heap.destroy 2 store_0_plus_1 3 = Some h'
    /\ dom h' = dom store_0_plus_1 ∖ ({[3%positive]} ∪ {[1%positive]} ∪ {[2%positive]})
    /\ forall x, x ∉ ({[3%positive]} ∪ {[1%positive]} ∪ {[2%positive]} : gset positive) ->
                 h' !! x = store_0_plus_1 !! x.
Proof.
  apply (destroy_exact store_0_plus_1 3 tree_0_plus_1).
  - exists 1%positive, 2%positive, {[1%positive]}, {[2%positive]}.
    repeat split; try reflexivity; set_solver.
  - cbn. lia.
Defined.

(** Property X17.  [ReplaceLeft] on the root of a tree, with a new child that is a
    tree of its own, leaves in the store the tree that the replacement
    denotes: the new child on the left, the old right child and the name of
    the root kept.  It allocates nothing. *)
Theorem ReplaceLeft_repr (h : gmap positive Heap.cell) (p c : positive)
    (t s t' : Expr) (F Fc : gset positive) :
  Heap.repr h p t F -> Heap.repr h c s Fc -> Fc ## F ->
  BinaryAddition.ReplaceLeft t s = Some t' ->
  exists h' F',
    Heap.ReplaceLeft (S (height t)) h p c = Some h'
    /\ Heap.repr h' p t' F'
    /\ F' ⊆ F ∪ Fc
    /\ dom h' ⊆ dom h.
Proof.
  intros Hr Hc Hdisj Hpure.
  destruct t as [v id | a b id]; [discriminate|]. injection Hpure as <-.
  cbn in Hr. destruct Hr as (pa & pb & Fa & Fb & Hp & Ha & Hb & Hdis & Hn & ->).
  unfold Heap.ReplaceLeft. rewrite Hp.
  assert (Ha1 : Heap.repr (<[p := Heap.CBinaryAddition c pb id]> h) pa a Fa).
  { apply (repr_frame h); [|done]. intros y Hy. apply lookup_insert_ne. set_solver. }
  destruct (destroy_spec _ _ _ _ (S (height (EBinaryAddition a b id))) Ha1
              ltac:(cbn; lia)) as (h' & E & Hdom & Hframe).
  exists h', ({[p]} ∪ Fc ∪ Fb). split; [done|]. split; [|split].
  - cbn. exists c, pb, Fc, Fb. repeat split.
    + rewrite Hframe by set_solver. apply lookup_insert_eq.
    + apply (repr_frame h); [|done]. intros y Hy.
      rewrite Hframe by set_solver. apply lookup_insert_ne. set_solver.
    + apply (repr_frame h); [|done]. intros y Hy.
      rewrite Hframe by set_solver. apply lookup_insert_ne. set_solver.
    + set_solver.
    + set_solver.
  - set_solver.
  - rewrite Hdom, dom_insert_L.
    assert (p ∈ dom h) by (apply elem_of_dom; by eexists). set_solver.
Qed.

(** Property X18.  [ReplaceRight] on the root of a tree, with a new child that is a
    tree of its own, leaves in the store the tree that the replacement
    denotes: the old left child, the new child on the right and the name of
    the root kept.  It allocates nothing. *)
Theorem ReplaceRight_repr (h : gmap positive Heap.cell) (p c : positive)
    (t s t' : Expr) (F Fc : gset positive) :
  Heap.repr h p t F -> Heap.repr h c s Fc -> Fc ## F ->
  BinaryAddition.ReplaceRight t s = Some t' ->
  exists h' F',
    Heap.ReplaceRight (S (height t)) h p c = Some h'
    /\ Heap.repr h' p t' F'
    /\ F' ⊆ F ∪ Fc
    /\ dom h' ⊆ dom h.
Proof.
  intros Hr Hc Hdisj Hpure.
  destruct t as [v id | a b id]; [discriminate|]. injection Hpure as <-.
  cbn in Hr. destruct Hr as (pa & pb & Fa & Fb & Hp & Ha & Hb & Hdis & Hn & ->).
  unfold Heap.ReplaceRight. rewrite Hp.
  assert (Hb1 : Heap.repr (<[p := Heap.CBinaryAddition pa c id]> h) pb b Fb).
  { apply (repr_frame h); [|done]. intros y Hy. apply lookup_insert_ne. set_solver. }
  destruct (destroy_spec _ _ _ _ (S (height (EBinaryAddition a b id))) Hb1
              ltac:(cbn; lia)) as (h' & E & Hdom & Hframe).
  exists h', ({[p]} ∪ Fa ∪ Fc). split; [done|]. split; [|split].
  - cbn. exists pa, c, Fa, Fc. repeat split.
    + rewrite Hframe by set_solver. apply lookup_insert_eq.
    + apply (repr_frame h); [|done]. intros y Hy.
      rewrite Hframe by set_solver. apply lookup_insert_ne. set_solver.
    + apply (repr_frame h); [|done]. intros y Hy.
      rewrite Hframe by set_solver. apply lookup_insert_ne. set_solver.
    + set_solver.
    + set_solver.
  - set_solver.
  - rewrite Hdom, dom_insert_L.
    assert (p ∈ dom h) by (apply elem_of_dom; by eexists). set_solver.
Qed.

Lemma Clone_alloc t : forall (h h' : gmap positive Heap.cell) p p' F fuel,
  Heap.repr h p t F -> Heap.Clone fuel h p = Some (h', p') ->
  exists F',
    Heap.repr h' p' t F' /\ dom h' = dom h ∪ F' /\ F' ## dom h /\ h ⊆ h'.
Proof.
  induction t as [v id | a IHa b IHb id]; intros h h' p p' F fuel Hr HC;
    (destruct fuel as [|fuel]; [discriminate|]); cbn in Hr; cbn [Heap.Clone] in HC.
  - destruct Hr as [Hp _]. rewrite Hp in HC.
    assert (HN : Heap.new h (Heap.CNumericConstant v id) = (h', p')) by congruence.
    destruct (new_spec _ _ _ _ HN) as (Hfresh & Hp' & Hsub & Hdom).
    exists {[p']}. repeat split; try done; set_solver.
  - destruct Hr as (pa & pb & Fa & Fb & Hp & Ha & Hb & Hd & Hn & ->).
    rewrite Hp in HC.
    destruct (Heap.Clone fuel h pa) as [[h1 pa']|] eqn:E1; [|discriminate].
    cbn in HC.
    destruct (Heap.Clone fuel h1 pb) as [[h2 pb']|] eqn:E2; [|discriminate].
    cbn in HC.
    assert (HN : Heap.new h2 (Heap.CBinaryAddition pa' pb' id) = (h', p'))
      by congruence.
    destruct (IHa _ _ _ _ _ _ Ha E1) as (Fa' & Ha' & Hd1 & Hf1 & Hs1).
    destruct (IHb _ _ _ _ _ _ (repr_weaken _ _ _ _ _ Hs1 Hb) E2)
      as (Fb' & Hb' & Hd2 & Hf2 & Hs2).
    destruct (new_spec _ _ _ _ HN) as (Hfresh & Hp' & Hs3 & Hd3).
    exists ({[p']} ∪ Fa' ∪ Fb'). repeat split.
    + cbn. exists pa', pb', Fa', Fb'. repeat split; try done.
      * apply (repr_weaken h1); [by etrans | done].
      * by apply (repr_weaken h2).
      * rewrite Hd1 in Hf2. clear -Hf2. set_solver.
      * rewrite Hd2 in Hfresh. clear -Hfresh Ha' Hb' Hs2.
        apply repr_dom in Ha', Hb'. set_solver.
    + rewrite Hd3, Hd2, Hd1. clear. set_solver.
    + rewrite Hd2, Hd1 in Hfresh. rewrite Hd1 in Hf2. clear -Hfresh Hf1 Hf2.
      set_solver.
    + by etrans; [|etrans].
Qed.

(** Property X19.  [Clone] allocates one cell per node of the tree, none of them in
    use before, and changes nothing else in the store. *)
Theorem Clone_allocates (h : gmap positive Heap.cell) (p : positive)
    (t : Expr) (F : gset positive) :
  Heap.repr h p t F ->
  exists h' p' F',
    Heap.Clone (S (height t)) h p = Some (h', p')
    /\ h ⊆ h'
    /\ dom h' = dom h ∪ F'
    /\ F' ## dom h
    /\ size F' = node_count t.
Proof.
  intros Hr.
  destruct (Clone_repr t h p F (S (height t)) Hr ltac:(lia))
    as (h' & p' & F0 & HC & _).
  destruct (Clone_alloc t _ _ _ _ _ _ Hr HC) as (F' & Hr' & Hdom & Hf & Hsub).
  exists h', p', F'. repeat split; try done.
  by apply (repr_size h' p').
Qed.

Lemma Clone_allocates_witness :
  exists h' p' F',
    Heap.Clone (S (height tree_0_plus_1)) store_0_plus_1 3 = Some (h', p')
    /\ store_0_plus_1 ⊆ h'
    /\ dom h' = dom store_0_plus_1 ∪ F'
    /\ F' ## dom store_0_plus_1
    /\ size F' = node_count tree_0_plus_1.
Proof.
  apply (Clone_allocates store_0_plus_1 3 tree_0_plus_1
           ({[3%positive]} ∪ {[1%positive]} ∪ {[2%positive]})).
  exists 1%positive, 2%positive, {[1%positive]}, {[2%positive]}.
  repeat split; try reflexivity; set_solver.
Defined.

Lemma ReplaceLeft_repr_witness :
  exists h' F',
    Heap.ReplaceLeft (S (height tree_0_plus_1)) store_0_plus_1_and_9 3 4 = Some h'
    /\ Heap.repr h' 3
         (EBinaryAddition (ENumericConstant (Value 9) "n")
                          (ENumericConstant (Value 1) "b") "root") F'
    /\ F' ⊆ ({[3%positive]} ∪ {[1%positive]} ∪ {[2%positive]}) ∪ {[4%positive]}
    /\ dom h' ⊆ dom store_0_plus_1_and_9.
Proof.
  apply (ReplaceLeft_repr store_0_plus_1_and_9 3 4 tree_0_plus_1
           (ENumericConstant (Value 9) "n")).
  - exists 1%positive, 2%positive, {[1%positive]}, {[2%positive]}.
    repeat split; try reflexivity; set_solver.
  - split; reflexivity.
  - set_solver.
  - reflexivity.
Defined.

Lemma ReplaceRight_repr_witness :
  exists h' F',
    Heap.ReplaceRight (S (height tree_0_plus_1)) store_0_plus_1_and_9 3 4 = Some h'
    /\ Heap.repr h' 3
         (EBinaryAddition (ENumericConstant (Value 0) "a")
                          (ENumericConstant (Value 9) "n") "root") F'
    /\ F' ⊆ ({[3%positive]} ∪ {[1%positive]} ∪ {[2%positive]}) ∪ {[4%positive]}
    /\ dom h' ⊆ dom store_0_plus_1_and_9.
Proof.
  apply (ReplaceRight_repr store_0_plus_1_and_9 3 4 tree_0_plus_1
           (ENumericConstant (Value 9) "n")).
  - exists 1%positive, 2%positive, {[1%positive]}, {[2%positive]}.
    repeat split; try reflexivity; set_solver.
  - split; reflexivity.
  - set_solver.
  - reflexivity.
Defined.
